(** * The resumable, rate-limited movie fetcher

    A shallow embedding of [movie_fetcher]: the [Movie] model
    ([src/models/movie.py]), the on-disk store ([src/utils/file_handler.py]),
    the two API clients ([src/services/trakt_service.py],
    [src/services/tmdb_service.py]) and the driver ([main.py]). *)

From Stdlib Require Import ZArith QArith Lqa Ascii String.
From Stdlib Require Import DecimalString DecimalZ.
From stdpp Require Import gmap list sorting.

Close Scope Q_scope.
Local Open Scope Z_scope.

(** ** Python strings

    A Python [str] is a sequence of Unicode code points. *)

Definition pystr := list N.

(** A literal of the source, written as an ASCII string. *)
Definition lit (s : string) : pystr := N_of_ascii <$> list_ascii_of_string s.

(** [str(n)] for an [int]: decimal digits, with a leading minus sign for
    negative numbers. *)
Definition str_of_int (z : Z) : pystr := lit (NilEmpty.string_of_int (Z.to_int z)).

Definition underscore : N := 95%N.

(** ** [src/models/movie.py] *)

Record Keyword := { k_id : Z; k_name : pystr }.

Record Ids := {
  trakt : Z;
  slug : pystr;
  imdb : option pystr;
  tmdb : option Z
}.

Record Stats := {
  watchers : Z;
  plays : Z;
  collectors : Z;
  comments : Z;
  lists : Z;
  st_votes : Z;
  recommended : Z
}.

(** [rating] is a Python float; no function of the fetcher computes with it,
    it is carried as an exact rational. *)
Record Rating := {
  rating : Q;
  votes : Z;
  distribution : list (pystr * Z)
}.

Record Movie := {
  title : pystr;
  year : Z;
  ids : Ids;
  tagline : option pystr;
  overview : option pystr;
  released : option pystr;
  runtime : option Z;
  country : option pystr;
  updated_at : option pystr;
  trailer : option pystr;
  homepage : option pystr;
  status : option pystr;
  language : option pystr;
  available_translations : list pystr;
  genres : list pystr;
  certification : option pystr;
  stats : Stats;
  m_rating : Rating;
  keywords : list Keyword
}.

(** The part of the Python runtime and of the deployment that the fetcher
    reads but the repository does not define. *)
Record Runtime := {
  (** [str.isalnum] on one code point (the Unicode table) *)
  isalnum : N → bool;
  (** [datetime.strptime(s, "%Y-%m-%d").date()], [None] for [ValueError];
      the result is kept in its ISO form, the one written to disk *)
  strptime_date : pystr → option pystr;
  (** [datetime.strptime(s, "%Y-%m-%dT%H:%M:%S.%fZ")] *)
  strptime_datetime : pystr → option pystr;
  (** [str(DATA_DIR / "movies")], [config.DATA_DIR] depends on where the
      package is installed *)
  MOVIES_DIR : pystr
}.

Section Filename.

Context (rt : Runtime).

(** ["".join(c if c.isalnum() else "_" for c in self.title)] *)
Definition clean_title (t : pystr) : pystr :=
  (λ c, if isalnum rt c then c else underscore) <$> t.

(** [Movie.get_filename] *)
Definition get_filename (m : Movie) : pystr :=
  clean_title (title m) ++ lit "_" ++ str_of_int (trakt (ids m)) ++ lit ".json".

End Filename.

(** ** [src/utils/file_handler.py] *)

Record IndexEntry := {
  e_id : Z;
  e_title : pystr;
  e_year : Z;
  e_filename : pystr;
  e_file_path : pystr;
  e_added_at : pystr
}.

(** The JSON object of [movies_index.json]. [last_page] and [fetched_ids]
    are read with [dict.get] and a default, so they may be absent. *)
Record IndexData := {
  idx_movies : list IndexEntry;
  last_updated : option pystr;
  last_page : option Z;
  fetched_ids : option (list Z)
}.

(** The data directory: the index file, if it exists, and the [*.json] files
    of [MOVIES_DIR] by name. *)
Record Disk := {
  index_file : option IndexData;
  movie_files : gmap pystr Movie
}.

Definition empty_disk : Disk := {| index_file := None; movie_files := ∅ |}.

Module FileHandler.
Section FileHandler.

Context (rt : Runtime).

Definition _load_index (d : Disk) : IndexData :=
  match index_file d with
  | Some index_data => index_data
  | None =>
      {| idx_movies := []; last_updated := None;
         last_page := Some 0; fetched_ids := Some [] |}
  end.

(** [now] is the reading of [datetime.now().isoformat()]. *)
Definition _save_index (movie_index : list IndexEntry) (page : Z) (now : pystr)
    (d : Disk) : Disk :=
  {| index_file := Some
       {| idx_movies := movie_index;
          last_updated := Some now;
          last_page := Some page;
          fetched_ids := Some (e_id <$> movie_index) |};
     movie_files := movie_files d |}.

Definition get_saved_count (d : Disk) : Z := Z.of_nat (size (movie_files d)).


Definition get_last_page (d : Disk) : Z := default 0 (last_page (_load_index d)).

Definition get_fetched_ids (d : Disk) : gset Z :=
  list_to_set (default [] (fetched_ids (_load_index d))).

(** The loop [for movie in pbar] of [save_movies]: every movie is written
    to its file and appended to the index list. [stamps k] is the [k]-th
    reading of [datetime.now()] in the call. *)
Fixpoint write_movies (stamps : nat → pystr) (k : nat) (new_movies : list Movie)
    (index : list IndexEntry) (files : gmap pystr Movie)
    : list IndexEntry * gmap pystr Movie :=
  match new_movies with
  | [] => (index, files)
  | movie :: rest =>
      let filename := get_filename rt movie in
      let file_path := MOVIES_DIR rt ++ lit "/" ++ filename in
      write_movies stamps (S k) rest
        (index ++ [ {| e_id := trakt (ids movie);
                       e_title := title movie;
                       e_year := year movie;
                       e_filename := filename;
                       e_file_path := file_path;
                       e_added_at := stamps k |} ])
        (<[filename := movie]> files)
  end.

Definition save_movies (stamps : nat → pystr) (movies : list Movie)
    (current_page : Z) (d : Disk) : Disk :=
  let index_data := _load_index d in
  let existing_movies : gset Z := list_to_set (e_id <$> idx_movies index_data) in
  let new_movies :=
    filter (λ m, trakt (ids m) ∉ existing_movies) movies in
  match new_movies with
  | [] => d
  | _ =>
      let '(index, files) :=
        write_movies stamps 0 new_movies (idx_movies index_data) (movie_files d) in
      _save_index index current_page (stamps (length new_movies))
        {| index_file := index_file d; movie_files := files |}
  end.

End FileHandler.
End FileHandler.

(** *** Observations on the store *)

Definition movie_ids (ms : list Movie) : list Z := (λ m, trakt (ids m)) <$> ms.

(** The identifiers of the index entries, in order: what [_save_index]
    writes as [fetched_ids]. *)
Definition index_ids (d : Disk) : list Z :=
  e_id <$> idx_movies (FileHandler._load_index d).

(** [new_movies] of [save_movies]. *)
Definition new_movies (d : Disk) (ms : list Movie) : list Movie :=
  filter (λ m, trakt (ids m) ∉ (list_to_set (index_ids d) : gset Z)) ms.

Definition entries_of (x : Z) (d : Disk) : list IndexEntry :=
  filter (λ e, e_id e = x) (idx_movies (FileHandler._load_index d)).

(** [f] is the name of a movie file whose record has the identifier [x]. *)
Definition file_of (x : Z) (d : Disk) (f : pystr) : Prop :=
  ∃ m, movie_files d !! f = Some m ∧ trakt (ids m) = x.

(** The index and the movie files agree: no identifier is indexed twice,
    every file is named after its record and indexed, and every index entry
    has its file. *)
Definition indexed (rt : Runtime) (index : list IndexEntry)
    (files : gmap pystr Movie) : Prop :=
  NoDup (e_id <$> index) ∧
  (∀ f m, files !! f = Some m →
     f = get_filename rt m ∧
     ∃ e, e ∈ index ∧ e_id e = trakt (ids m) ∧ e_filename e = f) ∧
  (∀ e, e ∈ index →
     ∃ m, files !! e_filename e = Some m ∧ trakt (ids m) = e_id e).

Definition consistent (rt : Runtime) (d : Disk) : Prop :=
  indexed rt (idx_movies (FileHandler._load_index d)) (movie_files d).

(** ** HTTP *)

(** One entry of the listing [/movies/popular]. *)
Record MovieData := {
  md_title : pystr;
  md_year : Z;
  md_ids : Ids
}.

(** The object of [/movies/<slug>], as far as [get_top_movies] reads it. *)
Record Details := {
  d_title : pystr;
  d_year : Z;
  d_ids : Ids;
  d_tagline : option pystr;
  d_overview : option pystr;
  d_released : option pystr;
  d_runtime : option Z;
  d_country : option pystr;
  d_updated_at : option pystr;
  d_trailer : option pystr;
  d_homepage : option pystr;
  d_status : option pystr;
  d_language : option pystr;
  d_available_translations : list pystr;
  d_genres : list pystr;
  d_certification : option pystr
}.

(** A decoded JSON body, by the shape its reader expects. *)
Inductive Body :=
| JPopular (page_movies : list MovieData)
| JDetails (movie : Details)
| JStats (stats_data : Stats)
| JRatings (ratings_data : Rating)
| JKeywords (kws : list Keyword)
| JOther (truthy : bool).

(** [json = None]: the body is not JSON. [JOther b] is any JSON value of
    another shape, [b] its truth value. *)
Record Response := {
  status_code : Z;
  json : option Body
}.

Inductive Request :=
| ReqPopular (page : Z) (limit : Z)
| ReqDetails (movie_id : pystr)
| ReqStats (movie_id : pystr)
| ReqRatings (movie_id : pystr)
| ReqKeywords (tmdb_id : Z).

Inductive exn :=
| HTTPError (status : Z)
| JSONDecodeError
| ShapeError
| ValueError.

Inductive result (A : Type) :=
| Ok (a : A)
| Raise (e : exn).
Arguments Ok {A} a.
Arguments Raise {A} e.

(** What a run does, newest event first in the log. [ERateLimit t] marks
    the return of [_respect_rate_limit], with the value [t] it stored in
    [last_request_time]. *)
Inductive Event :=
| ESleep (secs : Q)
| ERateLimit (t : Q)
| EGet (req : Request) (resp : Response)
| EYield (batch : list Movie) (page : Z).

(** The outside of a run: the time on the clock when it starts, the response
    to the [n]-th request, the time that passes before the [n]-th reading of
    the clock, and by how much the [n]-th [time.sleep] overshoots. Time is
    counted in seconds, as exact rationals. *)
Record World := {
  boot : Q;
  respond : nat → Request → Response;
  elapsed : nat → Q;
  oversleep : nat → Q
}.

(** The clock does not run backwards and no sleep is cut short. *)
Definition world_ok (w : World) : Prop :=
  (∀ n, 0 <= elapsed w n)%Q ∧ (∀ n, 0 <= oversleep w n)%Q.

(** The [TraktService] object. *)
Record TraktService := {
  last_request_time : Q;
  svc_fetched_ids : gset Z;
  start_page : Z
}.

Record St := {
  self : TraktService;
  clock : Q;
  reads : nat;
  naps : nat;
  sent : nat;
  log : list Event
}.

Definition M (A : Type) : Type := St → result A * St.

Definition mret {A} (a : A) : M A := λ s, (Ok a, s).

Definition mbind {A B} (m : M A) (f : A → M B) : M B :=
  λ s, match m s with
       | (Ok a, s') => f a s'
       | (Raise e, s') => (Raise e, s')
       end.

Definition raise {A} (e : exn) : M A := λ s, (Raise e, s).

Declare Scope py_scope.
Delimit Scope py_scope with py.
Notation "'let*' x ':=' m 'in' k" := (mbind m (λ x, k))
  (at level 10, x name, m at level 100, k at level 200) : py_scope.
Notation "'run' m 'in' k" := (mbind m (λ _, k))
  (at level 10, m at level 100, k at level 200) : py_scope.
Local Open Scope py_scope.

Section Effects.

Context (w : World).

Definition emit (e : Event) : M unit :=
  λ s, (Ok tt, {| self := self s; clock := clock s; reads := reads s;
                  naps := naps s; sent := sent s; log := e :: log s |}).

(** [time.time()] *)
Definition time_time : M Q :=
  λ s, let t := (clock s + elapsed w (reads s))%Q in
       (Ok t, {| self := self s; clock := t; reads := S (reads s);
                 naps := naps s; sent := sent s; log := log s |}).

(** [time.sleep(secs)] *)
Definition time_sleep (secs : Q) : M unit :=
  λ s, (Ok tt, {| self := self s;
                  clock := (clock s + secs + oversleep w (naps s))%Q;
                  reads := reads s; naps := S (naps s); sent := sent s;
                  log := ESleep secs :: log s |}).

(** [requests.get] *)
Definition requests_get (req : Request) : M Response :=
  λ s, let resp := respond w (sent s) req in
       (Ok resp, {| self := self s; clock := clock s; reads := reads s;
                    naps := naps s; sent := S (sent s);
                    log := EGet req resp :: log s |}).

(** [Response.raise_for_status]: an [HTTPError] for a 4xx or 5xx status. *)
Definition raise_for_status (response : Response) : M unit :=
  if (400 <=? status_code response) && (status_code response <? 600)
  then raise (HTTPError (status_code response))
  else mret tt.

(** [Response.json] *)
Definition response_json (response : Response) : M Body :=
  match json response with
  | Some body => mret body
  | None => raise JSONDecodeError
  end.

Definition get_self : M TraktService := λ s, (Ok (self s), s).

Definition set_last_request_time (t : Q) : M unit :=
  λ s, (Ok tt, {| self := {| last_request_time := t;
                             svc_fetched_ids := svc_fetched_ids (self s);
                             start_page := start_page (self s) |};
                  clock := clock s; reads := reads s; naps := naps s;
                  sent := sent s; log := log s |}).

End Effects.

(** ** [src/services/tmdb_service.py] *)

Module TMDBService.
Section TMDBService.

Context (w : World).

Definition get_movie_keywords (tmdb_id : Z) : M (list Keyword) :=
  if tmdb_id =? 0 then mret []
  else
    let* response := requests_get w (ReqKeywords tmdb_id) in
    if status_code response =? 404 then mret []
    else
      run raise_for_status response in
      let* body := response_json response in
      match body with
      | JKeywords kws => mret kws
      | _ => raise ShapeError
      end.

End TMDBService.
End TMDBService.

(** ** [src/services/trakt_service.py] *)

Definition MAX_REQUESTS : Z := 1000.
Definition WINDOW_SIZE : Z := 300.
Definition REQUEST_DELAY : Q := (inject_Z WINDOW_SIZE / inject_Z MAX_REQUESTS)%Q.
Definition BATCH_SIZE : nat := 50.

(** The locals of the generator [get_top_movies]. *)
Record Gen := {
  movies : list Movie;
  page : Z;
  total_processed : Z
}.

(** How the [while] loop of [get_top_movies] was left; [OutOfFuel] when the
    model stopped unfolding it. *)
Inductive Stop :=
| LimitReached
| EmptyPage
| OutOfFuel.

(** [if movie.get(key)]: a present, non-empty string. *)
Definition truthy_str (o : option pystr) : option pystr :=
  match o with
  | Some [] => None
  | _ => o
  end.

Module TraktService.
Section TraktService.

Context (rt : Runtime) (w : World).

(** [TraktService.__init__] *)
Definition __init__ (d : Disk) : TraktService :=
  {| last_request_time := 0;
     svc_fetched_ids := FileHandler.get_fetched_ids d;
     start_page := FileHandler.get_last_page d + 1 |}.

Definition _respect_rate_limit : M unit :=
  let* current_time := time_time w in
  let* me := get_self in
  let time_since_last := (current_time - last_request_time me)%Q in
  run (if Qlt_le_dec time_since_last REQUEST_DELAY
       then time_sleep w (REQUEST_DELAY - time_since_last)%Q
       else mret tt) in
  let* t := time_time w in
  run set_last_request_time t in
  emit (ERateLimit t).

Definition get_movie_details (movie_id : pystr) : M Body :=
  run _respect_rate_limit in
  let* response := requests_get w (ReqDetails movie_id) in
  run raise_for_status response in
  response_json response.

Definition get_movie_stats (movie_id : pystr) : M Body :=
  run _respect_rate_limit in
  let* response := requests_get w (ReqStats movie_id) in
  run raise_for_status response in
  response_json response.

Definition get_movie_ratings (movie_id : pystr) : M Body :=
  run _respect_rate_limit in
  let* response := requests_get w (ReqRatings movie_id) in
  run raise_for_status response in
  response_json response.

(** [strptime] on an optional field: [None] when the field is absent or
    empty, [ValueError] when it does not parse. *)
Definition parse_opt (parse : pystr → option pystr) (o : option pystr)
    : M (option pystr) :=
  match truthy_str o with
  | None => mret None
  | Some text =>
      match parse text with
      | Some v => mret (Some v)
      | None => raise ValueError
      end
  end.

(** The constructor call [Movie(...)] of [get_top_movies]. *)
Definition make_movie (movie : Details) (stats_data ratings_data : Body)
    (kws : list Keyword) : M Movie :=
  let* released_ := parse_opt (strptime_date rt) (d_released movie) in
  let* updated_at_ := parse_opt (strptime_datetime rt) (d_updated_at movie) in
  match stats_data, ratings_data with
  | JStats st, JRatings rg =>
      mret {| title := d_title movie;
              year := d_year movie;
              ids := d_ids movie;
              tagline := d_tagline movie;
              overview := d_overview movie;
              released := released_;
              runtime := d_runtime movie;
              country := d_country movie;
              updated_at := updated_at_;
              trailer := d_trailer movie;
              homepage := d_homepage movie;
              status := d_status movie;
              language := d_language movie;
              available_translations := d_available_translations movie;
              genres := d_genres movie;
              certification := d_certification movie;
              stats := st;
              m_rating := rg;
              keywords := kws |}
  | _, _ => raise ShapeError
  end.

(** The body of [for movie_data in page_movies] for a movie that is not
    skipped, up to the construction of [movie_obj]. *)
Definition fetch_movie (movie_data : MovieData) : M Movie :=
  let movie_slug := slug (md_ids movie_data) in
  let* movie_json := get_movie_details movie_slug in
  match movie_json with
  | JDetails movie =>
      let* stats_data := get_movie_stats movie_slug in
      let* ratings_data := get_movie_ratings movie_slug in
      let* kws :=
        match tmdb (d_ids movie) with
        | Some tmdb_id =>
            if tmdb_id =? 0 then mret []
            else TMDBService.get_movie_keywords w tmdb_id
        | None => mret []
        end in
      make_movie movie stats_data ratings_data kws
  | _ => raise ShapeError
  end.

(** [for movie_data in page_movies: ...] *)
Fixpoint for_page_movies (limit : Z) (page_movies : list MovieData) (g : Gen)
    : M Gen :=
  match page_movies with
  | [] => mret g
  | movie_data :: rest =>
      if total_processed g >=? limit then mret g
      else
        let* me := get_self in
        if bool_decide (trakt (md_ids movie_data) ∈ svc_fetched_ids me)
        then for_page_movies limit rest g
        else
          let* movie_obj := fetch_movie movie_data in
          let movies' := movies g ++ [movie_obj] in
          let total := total_processed g + 1 in
          if (BATCH_SIZE <=? length movies')%nat
          then
            run emit (EYield movies' (page g)) in
            for_page_movies limit rest
              {| movies := []; page := page g; total_processed := total |}
          else
            for_page_movies limit rest
              {| movies := movies'; page := page g; total_processed := total |}
  end.

(** [while total_processed < limit: ...], unfolded at most [fuel] times. *)
Fixpoint while_loop (fuel : nat) (limit : Z) (g : Gen) : M (Gen * Stop) :=
  if total_processed g <? limit then
    match fuel with
    | O => mret (g, OutOfFuel)
    | S fuel' =>
        run _respect_rate_limit in
        let* response :=
          requests_get w
            (ReqPopular (page g) (Z.min (limit - total_processed g) 20)) in
        run raise_for_status response in
        let* body := response_json response in
        match body with
        | JPopular [] | JOther false => mret (g, EmptyPage)
        | JPopular page_movies =>
            let* g' := for_page_movies limit page_movies g in
            while_loop fuel' limit
              {| movies := movies g'; page := page g' + 1;
                 total_processed := total_processed g' |}
        | _ => raise ShapeError
        end
    end
  else mret (g, LimitReached).

Definition get_top_movies (fuel : nat) (limit : Z) : M Stop :=
  let* me := get_self in
  let* left :=
    while_loop fuel limit
      {| movies := []; page := start_page me; total_processed := 0 |} in
  let '(g, stop) := left in
  match stop with
  | OutOfFuel => mret OutOfFuel
  | _ =>
      run (match movies g with
           | [] => mret tt
           | _ => emit (EYield (movies g) (page g))
           end) in
      mret stop
  end.

End TraktService.
End TraktService.

(** ** [main.py] *)

(** The batches a generator has yielded, oldest first. *)
Definition yields (l : list Event) : list (list Movie * Z) :=
  omap (λ e, match e with EYield batch pg => Some (batch, pg) | _ => None end)
       (rev l).

Definition target_total : Z := 12000.

Section Main.

Context (rt : Runtime) (w : World).

Definition init_state (svc : TraktService) : St :=
  {| self := svc; clock := boot w; reads := 0; naps := 0; sent := 0; log := [] |}.

(** [for batch, current_page in ...: FileHandler.save_movies(batch,
    current_page)]; [stamps k] are the timestamps of the [k]-th call. *)
Fixpoint save_batches (stamps : nat → nat → pystr) (k : nat)
    (batches : list (list Movie * Z)) (d : Disk) : Disk :=
  match batches with
  | [] => d
  | (batch, current_page) :: rest =>
      save_batches stamps (S k) rest
        (FileHandler.save_movies rt (stamps k) batch current_page d)
  end.

(** The batches [main] receives from [trakt_service.get_top_movies]: none
    when the target is reached already; those yielded before the error
    when the generator raises. *)
Definition main_batches (fuel : nat) (d : Disk) : list (list Movie * Z) :=
  let saved_count := FileHandler.get_saved_count d in
  let remaining := Z.max 0 (target_total - saved_count) in
  if remaining =? 0 then []
  else
    let trakt_service := TraktService.__init__ d in
    yields (log (TraktService.get_top_movies rt w fuel remaining
                   (init_state trakt_service)).2).

Definition main (stamps : nat → nat → pystr) (fuel : nat) (d : Disk) : Disk :=
  save_batches stamps 0 (main_batches fuel d) d.

(** The value of [get_last_page] after each call of [save_movies] in the
    loop of [main]. *)
Fixpoint persisted_pages (stamps : nat → nat → pystr) (k : nat)
    (batches : list (list Movie * Z)) (d : Disk) : list Z :=
  match batches with
  | [] => []
  | (batch, current_page) :: rest =>
      let d' := FileHandler.save_movies rt (stamps k) batch current_page d in
      FileHandler.get_last_page d' :: persisted_pages stamps (S k) rest d'
  end.

End Main.

(** ** Observations on a run *)

(** The requests of a run with their responses, oldest first. *)
Definition exchanges (l : list Event) : list (Request * Response) :=
  omap (λ e, match e with EGet req resp => Some (req, resp) | _ => None end)
       (rev l).

Definition is_details (x : Request * Response) : bool :=
  match x.1 with ReqDetails _ => true | _ => false end.

(** The values [_respect_rate_limit] stored in [last_request_time], oldest
    first. *)
Definition limiter_stamps (l : list Event) : list Q :=
  omap (λ e, match e with ERateLimit t => Some t | _ => None end) (rev l).

Definition requests (l : list Event) : list Request := (exchanges l).*1.

(** The number of detail lookups among the first [i] requests: the movies
    fetched before the [i]-th request. *)
Definition fetched_before (i : nat) (xs : list (Request * Response)) : Z :=
  Z.of_nat (length (filter is_details (take i xs))).

(** The first request of a run of [get_top_movies limit] from page [start]. *)
Definition first_request (limit start : Z) (l : list Event) : Prop :=
  head (requests l) = Some (ReqPopular start (Z.min limit 20)).

(** Every listing request asks for [min(limit - total_processed, 20)]
    entries. *)
Definition page_sizes (limit : Z) (xs : list (Request * Response)) : Prop :=
  ∀ i pg n resp,
    xs !! i = Some (ReqPopular pg n, resp) →
    n = Z.min (limit - fetched_before i xs) 20 ∧ 1 ≤ n ≤ 20.

(** What comes right before a request, on a log (newest first): the return
    of the limiter for a Trakt request, the ratings request for a keyword
    request. *)
Definition preceded (req : Request) (l : list Event) : Prop :=
  match req, l with
  | ReqKeywords _, EGet (ReqRatings _) _ :: _ => True
  | ReqKeywords _, _ => False
  | _, ERateLimit _ :: _ => True
  | _, _ => False
  end.

Fixpoint guarded (l : list Event) : Prop :=
  match l with
  | [] => True
  | EGet req _ :: l' => preceded req l' ∧ guarded l'
  | _ :: l' => guarded l'
  end.

(** The same on the events in the order they happened. *)
Definition limiter_discipline (tr : list Event) : Prop :=
  ∀ i req resp,
    tr !! i = Some (EGet req resp) →
    match req with
    | ReqKeywords _ =>
        ∃ j movie_id r, i = S j ∧ tr !! j = Some (EGet (ReqRatings movie_id) r)
    | _ => ∃ j t, i = S j ∧ tr !! j = Some (ERateLimit t)
    end.

(** A request that is neither a listing nor a detail lookup. *)
Definition quiet (x : Request * Response) : Prop :=
  match x.1 with
  | ReqPopular _ _ | ReqDetails _ => False
  | _ => True
  end.

(** Successive values do not decrease. *)
Definition non_decreasing (ps : list Z) : Prop :=
  ∀ i p q, ps !! i = Some p → ps !! S i = Some q → p ≤ q.

Definition preserves (I : St → Prop) {A} (m : M A) : Prop :=
  ∀ s, I s → I (m s).2.

(** A listing body on which [if not page_movies: break] leaves the loop. *)
Definition empty_page (resp : Response) : Prop :=
  json resp = Some (JPopular []) ∨ json resp = Some (JOther false).

Definition batch_sizes (ys : list (list Movie * Z)) : list nat :=
  (λ y, length y.1) <$> ys.

(** The status codes on which [raise_for_status] raises. *)
Definition error_status (sc : Z) : bool := (400 <=? sc) && (sc <? 600).

(** What a client makes of a response: [raise_for_status], then [json]. *)
Definition decode (resp : Response) : result Body :=
  if error_status (status_code resp) then Raise (HTTPError (status_code resp))
  else match json resp with
       | Some body => Ok body
       | None => Raise JSONDecodeError
       end.

(** The common body of the Trakt lookups. *)
Definition limited_get (w : World) (req : Request) : M Body :=
  run TraktService._respect_rate_limit w in
  let* response := requests_get w req in
  run raise_for_status response in
  response_json response.

(** *** The shape of a log

    The events of one rate-limited request, newest first: the request, the
    return of the limiter, and the sleep if there was one. *)
Definition nap (pre : list Event) : Prop := pre = [] ∨ ∃ secs, pre = [ESleep secs].

Inductive throttled (req : Request) (resp : Response) : list Event → Prop :=
| throttled_intro t pre :
    nap pre → throttled req resp (EGet req resp :: ERateLimit t :: pre).

(** The events of one new movie after [k] of its lookups. *)
Inductive item_log (movie_slug : pystr) : nat → list Event → Prop :=
| item_details resp b :
    throttled (ReqDetails movie_slug) resp b → item_log movie_slug 1 b
| item_stats l resp b :
    item_log movie_slug 1 l → throttled (ReqStats movie_slug) resp b →
    item_log movie_slug 2 (b ++ l)
| item_ratings l resp b :
    item_log movie_slug 2 l → throttled (ReqRatings movie_slug) resp b →
    item_log movie_slug 3 (b ++ l)
| item_keywords l tmdb_id resp :
    item_log movie_slug 3 l →
    item_log movie_slug 4 (EGet (ReqKeywords tmdb_id) resp :: l).

(** The statuses on which the keyword lookup raises: an error status other
    than 404. *)
Definition fatal_status (sc : Z) : bool := error_status sc && negb (sc =? 404).

(** What [get_movie_keywords] makes of a response. *)
Definition keywords_result (resp : Response) : result (list Keyword) :=
  if status_code resp =? 404 then Ok []
  else match decode resp with
       | Ok (JKeywords kws) => Ok kws
       | Ok _ => Raise ShapeError
       | Raise e => Raise e
       end.

(** A keyword lookup that did not raise. *)
Definition keywords_served (e : Event) : Prop :=
  match e with
  | EGet (ReqKeywords _) resp => fatal_status (status_code resp) = false
  | _ => True
  end.

Inductive Phase := AtWhile | InFor.

Definition listing_request (limit : Z) (g : Gen) : Request :=
  ReqPopular (page g) (Z.min (limit - total_processed g) 20).

(** The locals and the log of [get_top_movies limit] at the head of its
    [while] loop and inside its [for] loop, after [n] pages. *)
Inductive reach (w : World) (limit start : Z)
    : Phase → nat → Gen → list Event → Prop :=
| reach_init :
    reach w limit start AtWhile 0
      {| movies := []; page := start; total_processed := 0 |} []
| reach_listing n g l i resp b x page_movies :
    reach w limit start AtWhile n g l →
    total_processed g < limit →
    resp = respond w i (listing_request limit g) →
    throttled (listing_request limit g) resp b →
    json resp = Some (JPopular (x :: page_movies)) →
    reach w limit start InFor n g (b ++ l)
| reach_item n g l movie_slug k evs movie_obj :
    reach w limit start InFor n g l →
    total_processed g < limit →
    item_log movie_slug k evs → (3 ≤ k)%nat →
    Forall keywords_served evs →
    (length (movies g ++ [movie_obj]) < BATCH_SIZE)%nat →
    reach w limit start InFor n
      {| movies := movies g ++ [movie_obj]; page := page g;
         total_processed := total_processed g + 1 |} (evs ++ l)
| reach_yield n g l movie_slug k evs movie_obj :
    reach w limit start InFor n g l →
    total_processed g < limit →
    item_log movie_slug k evs → (3 ≤ k)%nat →
    Forall keywords_served evs →
    (BATCH_SIZE ≤ length (movies g ++ [movie_obj]))%nat →
    reach w limit start InFor n
      {| movies := []; page := page g;
         total_processed := total_processed g + 1 |}
      (EYield (movies g ++ [movie_obj]) (page g) :: evs ++ l)
| reach_next n g l :
    reach w limit start InFor n g l →
    reach w limit start AtWhile (S n)
      {| movies := movies g; page := page g + 1;
         total_processed := total_processed g |} l.

(** How the [while] loop ends when unfolded at most [fuel] times, and the
    log then. *)
Inductive loop_exit (w : World) (limit start : Z) (fuel : nat)
    : result (Gen * Stop) → list Event → Prop :=
| exit_limit n g l :
    reach w limit start AtWhile n g l → limit ≤ total_processed g →
    loop_exit w limit start fuel (Ok (g, LimitReached)) l
| exit_empty n g l resp b :
    reach w limit start AtWhile n g l → total_processed g < limit →
    throttled (listing_request limit g) resp b → empty_page resp →
    loop_exit w limit start fuel (Ok (g, EmptyPage)) (b ++ l)
| exit_fuel g l :
    reach w limit start AtWhile fuel g l → total_processed g < limit →
    loop_exit w limit start fuel (Ok (g, OutOfFuel)) l
| exit_raise_listing e n g l resp b :
    reach w limit start AtWhile n g l → total_processed g < limit →
    throttled (listing_request limit g) resp b →
    loop_exit w limit start fuel (Raise e) (b ++ l)
| exit_raise_item e n g l movie_slug k evs :
    reach w limit start InFor n g l → total_processed g < limit →
    item_log movie_slug k evs →
    loop_exit w limit start fuel (Raise e) (evs ++ l).

(** [if movies: yield movies, page] *)
Definition last_yield (g : Gen) : list Event :=
  match movies g with
  | [] => []
  | _ => [EYield (movies g) (page g)]
  end.

(** The result and the log of [get_top_movies], from those of its loop. *)
Definition final_result (x : result (Gen * Stop)) : result Stop :=
  match x with
  | Ok (_, stop) => Ok stop
  | Raise e => Raise e
  end.

Definition final_log (x : result (Gen * Stop)) (l : list Event) : list Event :=
  match x with
  | Ok (_, OutOfFuel) | Raise _ => l
  | Ok (g, _) => last_yield g ++ l
  end.

(** ** Sample data *)

(** ASCII letters and digits, the restriction of [str.isalnum] to ASCII. *)
Definition ascii_isalnum (c : N) : bool :=
  ((48 <=? c) && (c <=? 57) || (65 <=? c) && (c <=? 90) || (97 <=? c) && (c <=? 122))%N.

(** A runtime whose date parsers accept every text. *)
Definition sample_runtime : Runtime :=
  {| isalnum := ascii_isalnum;
     strptime_date := Some;
     strptime_datetime := Some;
     MOVIES_DIR := lit "data/movies" |}.

Definition sample_ids (id : Z) (tmdb_id : option Z) : Ids :=
  {| trakt := id; slug := lit "movie-" ++ str_of_int id; imdb := None;
     tmdb := tmdb_id |}.

Definition sample_stats : Stats :=
  {| watchers := 10; plays := 20; collectors := 3; comments := 1; lists := 2;
     st_votes := 5; recommended := 0 |}.

Definition sample_rating : Rating :=
  {| rating := 7; votes := 5; distribution := [(lit "7", 5)] |}.

Definition sample_details (t : string) (id : Z) (tmdb_id : option Z) : Details :=
  {| d_title := lit t; d_year := 2012; d_ids := sample_ids id tmdb_id;
     d_tagline := None; d_overview := None; d_released := None;
     d_runtime := Some 100; d_country := None; d_updated_at := None;
     d_trailer := None; d_homepage := None; d_status := None;
     d_language := None; d_available_translations := []; d_genres := [];
     d_certification := None |}.

Definition sample_movie (t : string) (id : Z) : Movie :=
  {| title := lit t; year := 2012; ids := sample_ids id None;
     tagline := None; overview := None; released := None;
     runtime := Some 100; country := None; updated_at := None;
     trailer := None; homepage := None; status := None; language := None;
     available_translations := []; genres := []; certification := None;
     stats := sample_stats; m_rating := sample_rating; keywords := [] |}.

Definition sample_stamps : nat → pystr := λ _, lit "2024-01-01T00:00:00".

(** A store with the movie 42, saved with page 3. *)
Definition disk_at_page_3 : Disk :=
  FileHandler.save_movies sample_runtime sample_stamps [sample_movie "A" 42] 3
    empty_disk.

Definition ok_response (body : Body) : Response :=
  {| status_code := 200; json := Some body |}.

Definition sample_keyword : Keyword := {| k_id := 1; k_name := lit "heist" |}.

Definition listing_of (d : Details) : MovieData :=
  {| md_title := d_title d; md_year := d_year d; md_ids := d_ids d |}.

(** The movies 1 to [n], with or without a TMDB identifier. *)
Definition sample_catalog (n : nat) (with_tmdb : bool) : list Details :=
  (λ i, sample_details "Movie" (Z.of_nat i)
          (if with_tmdb then Some (1000 + Z.of_nat i) else None)) <$> seq 1 n.

(** A server for a catalog: page [pg] of size [n] is the slice of the
    catalog from entry [(pg - 1) * n]; details are found by slug; every
    keyword lookup is answered by [kw]. The clock starts at 1000 and
    [tick] passes before each reading; no sleep overshoots. *)
Definition catalog_world (catalog : list Details) (tick : Q) (kw : Response)
    : World :=
  {| boot := 1000;
     elapsed := λ _, tick;
     oversleep := λ _, 0%Q;
     respond := λ _ req,
       match req with
       | ReqPopular pg n =>
           ok_response
             (JPopular (listing_of <$>
                          take (Z.to_nat n) (drop (Z.to_nat ((pg - 1) * n)) catalog)))
       | ReqDetails movie_id =>
           match List.find (λ d, bool_decide (slug (d_ids d) = movie_id)) catalog with
           | Some d => ok_response (JDetails d)
           | None => {| status_code := 404; json := None |}
           end
       | ReqStats _ => ok_response (JStats sample_stats)
       | ReqRatings _ => ok_response (JRatings sample_rating)
       | ReqKeywords _ => kw
       end |}.

Definition not_found : Response := {| status_code := 404; json := None |}.

(** ** Further observations on the store *)

(** The index entry that [save_movies] appends for a movie. *)
Definition entry_of (rt : Runtime) (stamp : pystr) (m : Movie) : IndexEntry :=
  {| e_id := trakt (ids m);
     e_title := title m;
     e_year := year m;
     e_filename := get_filename rt m;
     e_file_path := MOVIES_DIR rt ++ lit "/" ++ get_filename rt m;
     e_added_at := stamp |}.

(** Every movie file is named after its record, and its record is indexed. *)
Definition named (rt : Runtime) (d : Disk) : Prop :=
  ∀ f m, movie_files d !! f = Some m →
    f = get_filename rt m ∧ trakt (ids m) ∈ index_ids d.

(** Every index entry has its file: a file under the name the entry gives,
    whose record has the identifier of the entry. *)
Definition backed (d : Disk) : Prop :=
  ∀ e, e ∈ idx_movies (FileHandler._load_index d) →
    ∃ m, movie_files d !! e_filename e = Some m ∧ trakt (ids m) = e_id e.

(** ** Further observations on a run *)

(** The pages of the listing requests of a run, oldest first. *)
Definition listing_pages (l : list Event) : list Z :=
  omap (λ req, match req with ReqPopular pg _ => Some pg | _ => None end)
       (requests l).

Definition is_listing (req : Request) : bool :=
  match req with ReqPopular _ _ => true | _ => false end.

Definition is_details_request (req : Request) : bool :=
  match req with ReqDetails _ => true | _ => false end.

Definition is_stats (req : Request) : bool :=
  match req with ReqStats _ => true | _ => false end.

Definition is_ratings (req : Request) : bool :=
  match req with ReqRatings _ => true | _ => false end.

Definition is_keywords (req : Request) : bool :=
  match req with ReqKeywords _ => true | _ => false end.

(** The number of requests of one kind in a run. *)
Definition count_requests (P : Request → bool) (l : list Event) : nat :=
  length (filter P (requests l)).

(** A sleep of the limiter: more than nothing, at most [REQUEST_DELAY]. *)
Definition short_sleep (e : Event) : Prop :=
  match e with
  | ESleep secs => (0 < secs)%Q ∧ (secs <= REQUEST_DELAY)%Q
  | _ => True
  end.

(** The service has not been used after the time on the clock, and so far
    it has slept in short sleeps only. *)
Definition calm (s : St) : Prop :=
  (last_request_time (self s) <= clock s)%Q ∧ Forall short_sleep (log s).

(** The fields of the service that [__init__] reads from the store. *)
Definition same_fields (fetched : gset Z) (first_page : Z) (s : St) : Prop :=
  svc_fetched_ids (self s) = fetched ∧ start_page (self s) = first_page.

(** The server of a catalog, out of order for the details of one movie. *)
Definition faulty_world (catalog : list Details) (broken : pystr) : World :=
  let w := catalog_world catalog 1 not_found in
  {| boot := boot w;
     elapsed := elapsed w;
     oversleep := oversleep w;
     respond := λ i req,
       match req with
       | ReqDetails movie_id =>
           if bool_decide (movie_id = broken)
           then {| status_code := 500; json := None |}
           else respond w i req
       | _ => respond w i req
       end |}.

(** A listing answer that is accepted and whose entries, at least one, are
    all among the identifiers [fetched]. *)
Definition known_page (fetched : gset Z) (resp : Response) : Prop :=
  ∃ x page_movies,
    decode resp = Ok (JPopular (x :: page_movies)) ∧
    ∀ movie_data, movie_data ∈ x :: page_movies →
      trakt (md_ids movie_data) ∈ fetched.

(** A server that lists the movie 42 on every page. *)
Definition stale_world : World :=
  {| boot := 1000;
     elapsed := λ _, 1%Q;
     oversleep := λ _, 0%Q;
     respond := λ _ req,
       match req with
       | ReqPopular _ _ =>
           ok_response (JPopular [listing_of (sample_details "A" 42 None)])
       | _ => not_found
       end |}.

(** The listing requests made in a phase of the loop beyond its [n] whole
    pages. *)
Definition phase_pages (ph : Phase) : nat :=
  match ph with InFor => 1 | AtWhile => 0 end.

(** ** Filenames *)

Section FilenameFacts.

Context (rt : Runtime).

Lemma lit_inj s1 s2 : lit s1 = lit s2 → s1 = s2.
Proof.
  unfold lit. intros H.
  rewrite <- (string_of_list_ascii_of_string s1), <- (string_of_list_ascii_of_string s2).
  f_equal. revert H. generalize (list_ascii_of_string s1) (list_ascii_of_string s2).
  induction l as [|a l IH]; intros [|b l']; simpl; intros H; try done.
  injection H as Hab Hl. f_equal; [|by apply IH].
  by rewrite <- (ascii_N_embedding a), <- (ascii_N_embedding b), Hab.
Qed.

Lemma str_of_int_inj z1 z2 : str_of_int z1 = str_of_int z2 → z1 = z2.
Proof.
  unfold str_of_int. intros H%lit_inj.
  apply DecimalZ.to_int_inj.
  pose proof (NilEmpty.isi (Z.to_int z1)) as H1.
  pose proof (NilEmpty.isi (Z.to_int z2)) as H2.
  rewrite H in H1. congruence.
Qed.

Lemma uint_no_underscore d : underscore ∉ lit (NilEmpty.string_of_uint d).
Proof.
  induction d; simpl; unfold lit in *; simpl;
    rewrite ?elem_of_cons; try (intros [?|?]; [done|tauto]).
  apply not_elem_of_nil.
Qed.

Lemma str_of_int_no_underscore z : underscore ∉ str_of_int z.
Proof.
  unfold str_of_int. destruct (Z.to_int z) as [d|d]; simpl.
  - apply uint_no_underscore.
  - unfold lit. simpl. fold (lit (NilEmpty.string_of_uint d)).
    rewrite elem_of_cons. intros [?|?]; [done|].
    by apply (uint_no_underscore d).
Qed.

(** The text after the last underscore of [a ++ "_" ++ d] is [d], when [d]
    holds no underscore. *)
Lemma split_last_underscore (a1 a2 d1 d2 : pystr) :
  underscore ∉ d1 → underscore ∉ d2 →
  a1 ++ underscore :: d1 = a2 ++ underscore :: d2 → a1 = a2 ∧ d1 = d2.
Proof.
  revert a2. induction a1 as [|x a1 IH]; intros [|y a2] H1 H2 Heq; simpl in *.
  - by injection Heq.
  - injection Heq as <- Heq. exfalso. apply H1. rewrite Heq.
    apply elem_of_app. right. apply elem_of_cons. by left.
  - injection Heq as -> Heq. exfalso. apply H2. rewrite <- Heq.
    apply elem_of_app. right. apply elem_of_cons. by left.
  - injection Heq as -> Heq. destruct (IH a2 H1 H2 Heq) as [-> ->]. done.
Qed.

Lemma get_filename_trakt m1 m2 :
  get_filename rt m1 = get_filename rt m2 →
  trakt (ids m1) = trakt (ids m2).
Proof.
  unfold get_filename. rewrite !app_assoc. intros H%app_inv_tail.
  rewrite <- !app_assoc in H. change (lit "_") with [underscore] in H. simpl in H.
  apply split_last_underscore in H as [_ H]; auto using str_of_int_no_underscore.
  by apply str_of_int_inj.
Qed.

End FilenameFacts.

(** ** The clients, step by step *)

Section Clients.

Context (rt : Runtime) (w : World).

Lemma respect_rate_limit_log s :
  ∃ t pre s',
    TraktService._respect_rate_limit w s = (Ok tt, s') ∧ nap pre ∧
    log s' = ERateLimit t :: pre ++ log s ∧
    svc_fetched_ids (self s') = svc_fetched_ids (self s) ∧
    sent s' = sent s.
Proof.
  unfold TraktService._respect_rate_limit, mbind, time_time, get_self; simpl.
  destruct (Qlt_le_dec _ _); simpl.
  - eexists _, [ESleep _], _. split; [reflexivity|].
    split; [right; eauto|]. done.
  - eexists _, [], _. split; [reflexivity|]. split; [by left|]. done.
Qed.

Lemma limited_get_spec req s :
  ∃ b s',
    limited_get w req s = (decode (respond w (sent s) req), s') ∧
    throttled req (respond w (sent s) req) b ∧
    log s' = b ++ log s ∧
    svc_fetched_ids (self s') = svc_fetched_ids (self s) ∧
    sent s' = S (sent s).
Proof.
  destruct (respect_rate_limit_log s) as (t & pre & s1 & E & Hpre & Hlog & Hf & Hs).
  unfold limited_get, mbind. rewrite E.
  unfold requests_get, raise_for_status, response_json, decode, error_status; simpl.
  rewrite Hs. set (resp := respond w (sent s) req).
  eexists (EGet req resp :: ERateLimit t :: pre), _. split.
  - destruct (_ && _); [reflexivity|]. unfold mret; simpl.
    destruct (json resp); reflexivity.
  - split; [by constructor|]. simpl. rewrite Hlog, Hf. done.
Qed.

(** The listing request of the [while] loop is one of these too. *)
Lemma limited_get_bind {A} req (k : Body → M A) s :
  (run TraktService._respect_rate_limit w in
   let* response := requests_get w req in
   run raise_for_status response in
   let* body := response_json response in
   k body) s
  = (let* body := limited_get w req in k body) s.
Proof.
  unfold limited_get, mbind.
  destruct (TraktService._respect_rate_limit w s) as [[[]|e] s1]; [|done].
  destruct (requests_get w req s1) as [[response|e] s2]; [|done].
  destruct (raise_for_status response s2) as [[[]|e] s3]; [|done].
  destruct (response_json response s3) as [[body|e] s4]; done.
Qed.

Lemma get_movie_keywords_log tmdb_id s :
  tmdb_id ≠ 0 →
  ∃ s', TMDBService.get_movie_keywords w tmdb_id s
        = (keywords_result (respond w (sent s) (ReqKeywords tmdb_id)), s') ∧
    log s' = EGet (ReqKeywords tmdb_id) (respond w (sent s) (ReqKeywords tmdb_id)) :: log s ∧
    svc_fetched_ids (self s') = svc_fetched_ids (self s).
Proof.
  intros Hne. unfold TMDBService.get_movie_keywords, keywords_result, decode.
  destruct (Z.eqb_spec tmdb_id 0) as [|_]; [done|].
  unfold mbind, requests_get; simpl.
  set (resp := respond w (sent s) (ReqKeywords tmdb_id)).
  destruct (status_code resp =? 404); [by eexists|].
  unfold raise_for_status, response_json, error_status.
  destruct (_ && _); [by eexists|]. unfold mret; simpl.
  destruct (json resp) as [[]|]; by eexists.
Qed.

Lemma keywords_result_served resp kws :
  keywords_result resp = Ok kws → fatal_status (status_code resp) = false.
Proof.
  unfold keywords_result, fatal_status, decode.
  destruct (status_code resp =? 404); [by rewrite andb_false_r|].
  by destruct (error_status _).
Qed.

Lemma throttled_served req resp b :
  (∀ tmdb_id, req ≠ ReqKeywords tmdb_id) →
  throttled req resp b → Forall keywords_served b.
Proof.
  intros Hreq [t pre Hpre]. repeat constructor.
  - destruct req; try done. by destruct (Hreq tmdb_id).
  - destruct Hpre as [-> |[secs ->]]; repeat constructor.
Qed.

Lemma make_movie_state movie stats_data ratings_data kws s :
  (TraktService.make_movie rt movie stats_data ratings_data kws s).2 = s.
Proof.
  unfold TraktService.make_movie, TraktService.parse_opt, mbind.
  destruct (truthy_str (d_released movie)) as [x|]; simpl;
    [destruct (strptime_date rt x); simpl; [|done]|];
    (destruct (truthy_str (d_updated_at movie)) as [y|]; simpl;
     [destruct (strptime_datetime rt y); simpl; [|done]|]);
    destruct stats_data, ratings_data; done.
Qed.

Lemma fetch_movie_log movie_data s r s' :
  TraktService.fetch_movie rt w movie_data s = (r, s') →
  ∃ k evs,
    item_log (slug (md_ids movie_data)) k evs ∧
    log s' = evs ++ log s ∧
    svc_fetched_ids (self s') = svc_fetched_ids (self s) ∧
    (∀ movie_obj, r = Ok movie_obj →
       (3 ≤ k)%nat ∧ Forall keywords_served evs).
Proof.
  unfold TraktService.fetch_movie.
  set (movie_slug := slug (md_ids movie_data)).
  change (TraktService.get_movie_details w movie_slug)
    with (limited_get w (ReqDetails movie_slug)).
  change (TraktService.get_movie_stats w movie_slug)
    with (limited_get w (ReqStats movie_slug)).
  change (TraktService.get_movie_ratings w movie_slug)
    with (limited_get w (ReqRatings movie_slug)).
  intros H.
  destruct (limited_get_spec (ReqDetails movie_slug) s)
    as (b1 & s1 & E1 & T1 & L1 & F1 & _).
  pose proof (item_details _ _ _ T1) as I1.
  unfold mbind at 1 in H. rewrite E1 in H.
  destruct (decode _) as [[| movie | | | |]|e];
    try (injection H as <- <-; exists 1%nat, b1; done).
  destruct (limited_get_spec (ReqStats movie_slug) s1)
    as (b2 & s2 & E2 & T2 & L2 & F2 & _).
  pose proof (item_stats _ _ _ _ I1 T2) as I2.
  unfold mbind at 1 in H. rewrite E2 in H.
  assert (log s2 = (b2 ++ b1) ++ log s) as L12 by
    (rewrite L2, L1, !app_assoc; done).
  destruct (decode _) as [stats_data|e];
    [|injection H as <- <-; exists 2%nat, (b2 ++ b1);
      rewrite F2, F1; done].
  destruct (limited_get_spec (ReqRatings movie_slug) s2)
    as (b3 & s3 & E3 & T3 & L3 & F3 & _).
  pose proof (item_ratings _ _ _ _ I2 T3) as I3.
  unfold mbind at 1 in H. rewrite E3 in H.
  assert (log s3 = (b3 ++ b2 ++ b1) ++ log s) as L by
    (rewrite L3, L2, L1, !app_assoc; done).
  destruct (decode _) as [ratings_data|e];
    [|injection H as <- <-; exists 3%nat, (b3 ++ b2 ++ b1);
      rewrite F3, F2, F1; done].
  assert (svc_fetched_ids (self s3) = svc_fetched_ids (self s)) as F by congruence.
  assert (Forall keywords_served (b3 ++ b2 ++ b1)) as Hserved.
  { rewrite !Forall_app. repeat split; eapply throttled_served; eauto; done. }
  unfold mbind at 1 in H.
  assert (∀ kws, TraktService.make_movie rt movie stats_data ratings_data kws s3
                 = (r, s') →
    ∃ k evs, item_log movie_slug k evs ∧ log s' = evs ++ log s ∧
      svc_fetched_ids (self s') = svc_fetched_ids (self s) ∧
      (∀ movie_obj, r = Ok movie_obj →
         (3 ≤ k)%nat ∧ Forall keywords_served evs)) as Hnokw.
  { intros kws Hm. exists 3%nat, (b3 ++ b2 ++ b1).
    pose proof (make_movie_state movie stats_data ratings_data kws s3) as Hs.
    rewrite Hm in Hs. simpl in Hs. subst s'. done. }
  destruct (tmdb (d_ids movie)) as [tmdb_id|]; [|by apply (Hnokw [])].
  destruct (Z.eqb_spec tmdb_id 0) as [|Hne]; [by apply (Hnokw [])|].
  destruct (get_movie_keywords_log tmdb_id s3 Hne) as (s4 & E4 & L4 & F4).
  rewrite E4 in H.
  exists 4%nat, (EGet (ReqKeywords tmdb_id)
                   (respond w (sent s3) (ReqKeywords tmdb_id)) :: b3 ++ b2 ++ b1).
  split; [by constructor|].
  destruct (keywords_result _) as [kws|e] eqn:K.
  - pose proof (make_movie_state movie stats_data ratings_data kws s4) as Hs.
    rewrite H in Hs. simpl in Hs. subst s'.
    rewrite L4, L, F4, F. split; [done|]. split; [done|].
    intros _ _. split; [lia|]. constructor; [|done].
    by eapply keywords_result_served.
  - injection H as <- <-. rewrite L4, L, F4, F. done.
Qed.

Lemma decode_Ok resp body :
  decode resp = Ok body →
  json resp = Some body ∧ error_status (status_code resp) = false.
Proof.
  unfold decode. destruct (error_status _); [done|].
  destruct (json resp); [|done]. by intros [= ->].
Qed.

Lemma for_page_movies_reach limit start fuel n page_movies :
  ∀ g s r s',
    reach w limit start InFor n g (log s) →
    TraktService.for_page_movies rt w limit page_movies g s = (r, s') →
    match r with
    | Ok g' => reach w limit start InFor n g' (log s')
    | Raise e => loop_exit w limit start fuel (Raise e) (log s')
    end.
Proof.
  induction page_movies as [|movie_data rest IH]; intros g s r s' Hreach H;
    cbn [TraktService.for_page_movies] in H.
  { by injection H as <- <-. }
  rewrite Z.geb_leb in H.
  destruct (Z.leb_spec limit (total_processed g)) as [|Hlt].
  { by injection H as <- <-. }
  unfold mbind at 1 in H. unfold get_self at 1 in H.
  destruct (bool_decide _); [by eapply IH|].
  unfold mbind at 1 in H.
  destruct (TraktService.fetch_movie rt w movie_data s) as [[movie_obj|e] s1] eqn:E;
    apply fetch_movie_log in E as (k & evs & Hitem & Hlog & _ & Hk).
  - destruct (Hk _ eq_refl) as [Hk3 Hserved].
    destruct (Nat.leb_spec BATCH_SIZE (length (movies g ++ [movie_obj]))).
    + unfold mbind at 1, emit at 1 in H. eapply IH; [|exact H]. simpl.
      rewrite Hlog. by eapply reach_yield.
    + eapply IH; [|exact H]. rewrite Hlog. by eapply reach_item.
  - injection H as <- <-. rewrite Hlog. by eapply exit_raise_item.
Qed.

Lemma while_loop_exit limit start fuel :
  ∀ n g s r s',
    reach w limit start AtWhile n g (log s) →
    TraktService.while_loop rt w fuel limit g s = (r, s') →
    loop_exit w limit start (n + fuel) r (log s').
Proof.
  induction fuel as [|fuel IH]; intros n g s r s' Hreach H;
    cbn [TraktService.while_loop] in H;
    destruct (Z.ltb_spec (total_processed g) limit) as [Hlt|Hge];
    try (injection H as <- <-; by econstructor).
  { injection H as <- <-. rewrite Nat.add_0_r. by constructor. }
  rewrite limited_get_bind in H. unfold mbind at 1 in H.
  destruct (limited_get_spec (listing_request limit g) s)
    as (b & s1 & E & T & L & _).
  unfold listing_request in E at 1. rewrite E in H.
  destruct (decode _) as [body|e] eqn:D;
    [apply decode_Ok in D as [D _]
    |injection H as <- <-; rewrite L; by eapply exit_raise_listing].
  destruct body as [[|x page_movies]| | | | |[]];
    try (injection H as <- <-; rewrite L; by eapply exit_raise_listing);
    try (injection H as <- <-; rewrite L; eapply exit_empty; eauto;
         unfold empty_page; by eauto).
  unfold mbind at 1 in H.
  destruct (TraktService.for_page_movies rt w limit (x :: page_movies) g s1)
    as [[g'|e] s2] eqn:E2;
    eapply (for_page_movies_reach limit start (n + S fuel) n) in E2;
    try (rewrite L; by eapply reach_listing).
  - replace (n + S fuel)%nat with (S n + fuel)%nat by lia.
    eapply IH; [|exact H]. by apply reach_next.
  - by injection H as <- <-.
Qed.

Lemma get_top_movies_exit fuel limit svc r s' :
  TraktService.get_top_movies rt w fuel limit (init_state w svc) = (r, s') →
  ∃ x l,
    loop_exit w limit (start_page svc) fuel x l ∧
    r = final_result x ∧ log s' = final_log x l.
Proof.
  unfold TraktService.get_top_movies. unfold mbind at 1, get_self at 1.
  unfold mbind at 1. intros H.
  destruct (TraktService.while_loop _ _ _ _ _ _) as [x s1] eqn:E.
  apply (while_loop_exit limit (start_page svc) fuel 0) in E; [|by constructor].
  exists x, (log s1). split; [done|].
  destruct x as [[g []]|e]; try (injection H as <- <-; done);
    unfold mbind at 1 in H; unfold final_log, last_yield;
    destruct (movies g); by injection H as <- <-.
Qed.

End Clients.

(** ** The store *)

Section Store.

Context (rt : Runtime).

Lemma write_movies_app stamps new : ∀ k index files,
  e_id <$> (FileHandler.write_movies rt stamps k new index files).1
  = (e_id <$> index) ++ movie_ids new.
Proof.
  induction new as [|m new IH]; intros k index files; simpl.
  - by rewrite app_nil_r.
  - rewrite IH, fmap_app, <- app_assoc. done.
Qed.

Lemma save_movies_noop stamps ms current_page d :
  new_movies d ms = [] → FileHandler.save_movies rt stamps ms current_page d = d.
Proof.
  unfold FileHandler.save_movies. fold (index_ids d). fold (new_movies d ms).
  by intros ->.
Qed.

Lemma save_movies_new stamps ms current_page d :
  new_movies d ms ≠ [] →
  FileHandler.save_movies rt stamps ms current_page d
  = let wr := FileHandler.write_movies rt stamps 0 (new_movies d ms)
                (idx_movies (FileHandler._load_index d)) (movie_files d) in
    FileHandler._save_index wr.1 current_page (stamps (length (new_movies d ms)))
      {| index_file := index_file d; movie_files := wr.2 |}.
Proof.
  unfold FileHandler.save_movies. fold (index_ids d). fold (new_movies d ms).
  destruct (new_movies d ms) as [|m new]; [done|]. intros _.
  by destruct (FileHandler.write_movies _ _ _ _ _ _).
Qed.

Lemma new_movies_nil d ms :
  new_movies d ms = [] ↔ ∀ m, m ∈ ms → trakt (ids m) ∈ index_ids d.
Proof.
  unfold new_movies. split.
  - intros H m Hm.
    destruct (decide (trakt (ids m) ∈ (list_to_set (index_ids d) : gset Z)))
      as [Hin|Hout]; [by apply elem_of_list_to_set in Hin|].
    assert (m ∈ filter (λ m, trakt (ids m) ∉ (list_to_set (index_ids d) : gset Z)) ms)
      as Hf by (by apply list_elem_of_filter).
    rewrite H in Hf. by apply elem_of_nil in Hf.
  - intros H. induction ms as [|m ms IH]; [done|].
    rewrite filter_cons. destruct (decide _) as [Hout|_].
    + exfalso. apply Hout, elem_of_list_to_set, H. by left.
    + apply IH. intros m' Hm'. apply H. by right.
Qed.

Lemma index_ids_save stamps ms current_page d :
  index_ids (FileHandler.save_movies rt stamps ms current_page d)
  = index_ids d ++ movie_ids (new_movies d ms).
Proof.
  destruct (decide (new_movies d ms = [])) as [E|E].
  - rewrite save_movies_noop, E by done. by rewrite app_nil_r.
  - rewrite save_movies_new by done. unfold index_ids at 1. simpl.
    apply write_movies_app.
Qed.

Lemma get_last_page_save stamps ms current_page d :
  new_movies d ms ≠ [] →
  FileHandler.get_last_page (FileHandler.save_movies rt stamps ms current_page d)
  = current_page.
Proof. intros E. by rewrite save_movies_new. Qed.

Lemma indexed_empty : indexed rt [] ∅.
Proof.
  split; [constructor|]. split.
  - intros f m H. by rewrite lookup_empty in H.
  - intros e H. by apply elem_of_nil in H.
Qed.

Lemma consistent_empty_disk : consistent rt empty_disk.
Proof. apply indexed_empty. Qed.

(** One turn of the loop of [save_movies], for a movie that is not
    indexed yet. *)
Lemma indexed_write index files m path stamp :
  indexed rt index files →
  trakt (ids m) ∉ (e_id <$> index) →
  indexed rt
    (index ++ [ {| e_id := trakt (ids m); e_title := title m; e_year := year m;
                   e_filename := get_filename rt m; e_file_path := path;
                   e_added_at := stamp |} ])
    (<[get_filename rt m := m]> files).
Proof.
  intros (Hnd & Hfiles & Hidx) Hnew. split; [|split].
  - rewrite fmap_app. apply NoDup_app. split; [done|]. split.
    + intros x Hx [-> |Hn]%elem_of_cons; [done|by apply elem_of_nil in Hn].
    + apply NoDup_singleton.
  - intros f m' Hf. destruct (decide (get_filename rt m = f)) as [<- |Hne].
    + rewrite lookup_insert_eq in Hf. injection Hf as <-. split; [done|].
      eexists. split; [apply elem_of_app; right; apply list_elem_of_singleton; done|].
      done.
    + rewrite lookup_insert_ne in Hf by done.
      destruct (Hfiles f m' Hf) as (-> & e & He & Hid & Hfn). split; [done|].
      exists e. split; [apply elem_of_app; by left|done].
  - intros e [He|Hlast%list_elem_of_singleton]%elem_of_app; [|subst e].
    + destruct (Hidx e He) as (m' & Hm' & Hid).
      destruct (decide (get_filename rt m = e_filename e)) as [Heq|Hne].
      * exfalso. apply Hnew. destruct (Hfiles _ _ Hm') as (Hname & _).
        rewrite Hname in Heq. apply get_filename_trakt in Heq.
        rewrite Heq, Hid. apply list_elem_of_fmap. eauto.
      * exists m'. by rewrite lookup_insert_ne.
    + exists m. simpl. by rewrite lookup_insert_eq.
Qed.

Lemma write_movies_indexed stamps new : ∀ k index files,
  indexed rt index files →
  NoDup (movie_ids new) →
  (∀ x, x ∈ movie_ids new → x ∉ (e_id <$> index)) →
  indexed rt (FileHandler.write_movies rt stamps k new index files).1
             (FileHandler.write_movies rt stamps k new index files).2.
Proof.
  induction new as [|m new IH]; intros k index files Hin Hnd Hfresh; [done|].
  simpl. apply NoDup_cons in Hnd as [Hm Hnd]. apply IH; [|done|].
  - apply indexed_write; [done|]. apply Hfresh. by left.
  - intros x Hx. rewrite fmap_app. intros [Hold|Heq%list_elem_of_singleton]%elem_of_app.
    + apply (Hfresh x); [by right|done].
    + simpl in Heq. by subst x.
Qed.

Lemma new_movies_fresh d ms x :
  x ∈ movie_ids (new_movies d ms) → (x ∉ index_ids d) ∧ (x ∈ movie_ids ms).
Proof.
  unfold movie_ids, new_movies.
  intros (m & -> & [Hout Hm]%list_elem_of_filter)%list_elem_of_fmap. split.
  - intros Hin. by apply Hout, elem_of_list_to_set.
  - apply list_elem_of_fmap. eauto.
Qed.

Lemma new_movies_NoDup d ms : NoDup (movie_ids ms) → NoDup (movie_ids (new_movies d ms)).
Proof.
  unfold movie_ids, new_movies. induction ms as [|m ms IH]; [done|].
  rewrite fmap_cons, NoDup_cons. intros [Hm Hnd].
  rewrite filter_cons. destruct (decide _); [|by apply IH].
  rewrite fmap_cons. apply NoDup_cons. split; [|by apply IH].
  intros (m' & E & [_ Hm']%list_elem_of_filter)%list_elem_of_fmap.
  apply Hm, list_elem_of_fmap. eauto.
Qed.

Lemma save_movies_consistent stamps ms current_page d :
  consistent rt d → NoDup (movie_ids ms) →
  consistent rt (FileHandler.save_movies rt stamps ms current_page d).
Proof.
  intros Hd Hnd. destruct (decide (new_movies d ms = [])) as [E|E].
  { by rewrite save_movies_noop. }
  rewrite save_movies_new by done. unfold consistent. simpl.
  apply write_movies_indexed; [done|by apply new_movies_NoDup|].
  intros x Hx. by apply new_movies_fresh in Hx as [? _].
Qed.

Lemma save_movies_covers stamps ms current_page d x :
  x ∈ index_ids d ∨ x ∈ movie_ids ms →
  x ∈ index_ids (FileHandler.save_movies rt stamps ms current_page d).
Proof.
  rewrite index_ids_save, elem_of_app. intros [H|H]; [by left|].
  destruct (decide (x ∈ index_ids d)) as [|Hout]; [by left|]. right.
  unfold movie_ids, new_movies in *.
  apply list_elem_of_fmap in H as (m & -> & Hm).
  apply list_elem_of_fmap. exists m. split; [done|].
  apply list_elem_of_filter. split; [|done].
  intros Hin. by apply elem_of_list_to_set in Hin.
Qed.

Lemma one_entry (index : list IndexEntry) x :
  NoDup (e_id <$> index) → x ∈ e_id <$> index →
  length (filter (λ e, e_id e = x) index) = 1%nat.
Proof.
  induction index as [|e index IH]; simpl.
  { by intros _ ?%elem_of_nil. }
  rewrite NoDup_cons. intros [He Hnd] Hx. rewrite filter_cons.
  destruct (decide (e_id e = x)) as [<- |Hne].
  - simpl. f_equal. apply length_zero_iff_nil.
    destruct (filter _ index) as [|e' l] eqn:E; [done|]. exfalso.
    assert (e' ∈ filter (λ e0, e_id e0 = e_id e) index) as [He' Hin]%list_elem_of_filter
      by (rewrite E; by left).
    apply He. rewrite <- He'. apply list_elem_of_fmap. eauto.
  - apply IH; [done|]. apply elem_of_cons in Hx as [|]; [congruence|done].
Qed.

Lemma consistent_one_entry d x :
  consistent rt d → x ∈ index_ids d → length (entries_of x d) = 1%nat.
Proof. intros (Hnd & _) Hx. by apply one_entry. Qed.

Lemma consistent_one_file d x :
  consistent rt d → x ∈ index_ids d →
  ∃ f, file_of x d f ∧ ∀ f', file_of x d f' → f' = f.
Proof.
  intros (Hnd & Hfiles & Hidx) (e & -> & He)%list_elem_of_fmap.
  destruct (Hidx e He) as (m & Hm & Hid).
  exists (e_filename e). split; [by exists m|].
  intros f' (m' & Hm' & Hid').
  destruct (Hfiles _ _ Hm') as (_ & e' & He' & Hid'' & <-).
  f_equal. apply list_elem_of_lookup in He as [i Hi], He' as [j Hj].
  assert (i = j) as ->.
  { eapply NoDup_lookup; [exact Hnd| |];
      rewrite list_lookup_fmap; [by rewrite Hi|rewrite Hj; simpl; congruence]. }
  congruence.
Qed.

Lemma non_decreasing_cons a b ps :
  a ≤ b → non_decreasing (b :: ps) → non_decreasing (a :: b :: ps).
Proof.
  intros Hab Hps [|i] p q Hp Hq; simpl in *.
  - injection Hp as <-. by injection Hq as <-.
  - by eapply Hps.
Qed.

Lemma persisted_pages_non_decreasing stamps batches :
  ∀ k d,
    StronglySorted Z.le batches.*2 →
    Forall (λ y, FileHandler.get_last_page d ≤ y.2) batches →
    non_decreasing
      (FileHandler.get_last_page d :: persisted_pages rt stamps k batches d).
Proof.
  induction batches as [|[batch pg] rest IH]; intros k d Hs Hge;
    cbn [persisted_pages].
  { by intros [|i] p q Hp Hq. }
  rewrite fmap_cons in Hs. apply StronglySorted_cons in Hs as [Hpg Hs].
  apply Forall_cons in Hge as [Hd Hge]. simpl in Hd.
  set (d' := FileHandler.save_movies rt (stamps k) batch pg d).
  assert (FileHandler.get_last_page d' = FileHandler.get_last_page d
          ∨ FileHandler.get_last_page d' = pg) as Hd'.
  { unfold d'. destruct (decide (new_movies d batch = [])) as [E|E].
    - left. by rewrite save_movies_noop.
    - right. by apply get_last_page_save. }
  apply non_decreasing_cons; [lia|]. apply IH; [done|].
  destruct Hd' as [-> | ->]; [done|].
  by rewrite Forall_fmap in Hpg.
Qed.

End Store.

(** ** Runs of [get_top_movies] *)

Section Observations.

Lemma exchanges_app a b : exchanges (a ++ b) = exchanges b ++ exchanges a.
Proof. unfold exchanges. by rewrite rev_app_distr, omap_app. Qed.

Lemma yields_app a b : yields (a ++ b) = yields b ++ yields a.
Proof. unfold yields. by rewrite rev_app_distr, omap_app. Qed.

Lemma limiter_stamps_app a b :
  limiter_stamps (a ++ b) = limiter_stamps b ++ limiter_stamps a.
Proof. unfold limiter_stamps. by rewrite rev_app_distr, omap_app. Qed.

Lemma requests_app a b : requests (a ++ b) = requests b ++ requests a.
Proof. unfold requests. by rewrite exchanges_app, fmap_app. Qed.

Lemma throttled_exchanges req resp b :
  throttled req resp b → exchanges b = [(req, resp)].
Proof. by intros [t pre [-> |[secs ->]]]. Qed.

Lemma throttled_yields req resp b : throttled req resp b → yields b = [].
Proof. by intros [t pre [-> |[secs ->]]]. Qed.

Lemma item_log_yields movie_slug k evs : item_log movie_slug k evs → yields evs = [].
Proof.
  induction 1 as [resp b T|l resp b _ IH T|l resp b _ IH T|l tmdb_id resp _ IH];
    rewrite ?yields_app, ?IH; try by eapply throttled_yields.
  change (EGet (ReqKeywords tmdb_id) resp :: l)
    with ([EGet (ReqKeywords tmdb_id) resp] ++ l).
  by rewrite yields_app, IH.
Qed.

(** A movie takes one detail lookup, its first request, and no listing. *)
Lemma item_log_exchanges movie_slug k evs :
  item_log movie_slug k evs →
  ∃ resp xs, exchanges evs = (ReqDetails movie_slug, resp) :: xs ∧ Forall quiet xs.
Proof.
  induction 1 as [resp b T|l resp b _ (r1 & xs & IH & Hq) T
                 |l resp b _ (r1 & xs & IH & Hq) T
                 |l tmdb_id resp _ (r1 & xs & IH & Hq)].
  - exists resp, []. by rewrite (throttled_exchanges _ _ _ T).
  - exists r1, (xs ++ [(ReqStats movie_slug, resp)]).
    rewrite exchanges_app, IH, (throttled_exchanges _ _ _ T). split; [done|].
    apply Forall_app. split; [done|]. by repeat constructor.
  - exists r1, (xs ++ [(ReqRatings movie_slug, resp)]).
    rewrite exchanges_app, IH, (throttled_exchanges _ _ _ T). split; [done|].
    apply Forall_app. split; [done|]. by repeat constructor.
  - exists r1, (xs ++ [(ReqKeywords tmdb_id, resp)]).
    change (EGet (ReqKeywords tmdb_id) resp :: l)
      with ([EGet (ReqKeywords tmdb_id) resp] ++ l).
    rewrite exchanges_app, IH. split; [done|].
    apply Forall_app. split; [done|]. by repeat constructor.
Qed.

End Observations.

Section Runs.

Context (w : World) (limit start : Z).

(** *** The first request *)

Lemma first_request_app evs l :
  first_request limit start l → first_request limit start (evs ++ l).
Proof.
  unfold first_request. rewrite requests_app, head_app. by intros ->.
Qed.

Lemma reach_first ph n g l :
  reach w limit start ph n g l →
  (ph = AtWhile ∧ n = 0%nat ∧ l = [] ∧
   g = {| movies := []; page := start; total_processed := 0 |})
  ∨ first_request limit start l.
Proof.
  induction 1 as [|n g l i resp b x pm _ IH Hlt _ T _
                  |n g l ms k evs mo _ IH _ _ _ _ _
                  |n g l ms k evs mo _ IH _ _ _ _ _
                  |n g l _ IH].
  - by left.
  - right. destruct IH as [(_ & _ & -> & ->)|IH]; [|by apply first_request_app].
    unfold first_request, requests.
    rewrite app_nil_r, (throttled_exchanges _ _ _ T). simpl.
    unfold listing_request. simpl. do 3 f_equal. lia.
  - right. destruct IH as [(? & _)|IH]; [done|by apply first_request_app].
  - right. destruct IH as [(? & _)|IH]; [done|].
    by apply (first_request_app (EYield _ _ :: evs)).
  - right. by destruct IH as [(? & _)|IH].
Qed.

Lemma loop_exit_first fuel x l :
  0 < limit → fuel ≠ 0%nat →
  loop_exit w limit start fuel x l →
  first_request limit start (final_log x l).
Proof.
  intros Hlimit Hfuel. 
  assert (∀ g b resp n l0,
    reach w limit start AtWhile n g l0 →
    throttled (listing_request limit g) resp b →
    first_request limit start (b ++ l0)) as Hlist.
  { intros g b resp n l0 Hr T. apply reach_first in Hr as [(_ & _ & -> & ->)|Hr];
      [|by apply first_request_app].
    unfold first_request, requests.
    rewrite app_nil_r, (throttled_exchanges _ _ _ T). simpl.
    unfold listing_request. simpl. do 3 f_equal. lia. }
  destruct 1 as [n g l Hr Hge|n g l resp b Hr Hlt T He|g l Hr Hlt
                |e n g l resp b Hr Hlt T|e n g l ms k evs Hr Hlt Hi]; simpl.
  - apply first_request_app. apply reach_first in Hr as [(_ & _ & _ & ->)|Hr]; [|done].
    simpl in Hge. lia.
  - apply first_request_app. by eapply Hlist.
  - by apply reach_first in Hr as [(_ & ? & _)|Hr].
  - by eapply Hlist.
  - apply first_request_app. by apply reach_first in Hr as [(? & _)|Hr].
Qed.

(** *** Page sizes *)

Lemma fetched_before_all xs :
  fetched_before (length xs) xs = Z.of_nat (length (filter is_details xs)).
Proof. unfold fetched_before. by rewrite take_ge. Qed.

Lemma fetched_before_app i xs ys :
  (i ≤ length xs)%nat → fetched_before i (xs ++ ys) = fetched_before i xs.
Proof. intros Hi. unfold fetched_before. by rewrite take_app_le. Qed.

Lemma quiet_not_details xs : Forall quiet xs → filter is_details xs = [].
Proof.
  induction 1 as [|[req resp] xs Hq _ IH]; [done|].
  rewrite filter_cons, IH. by destruct req.
Qed.

Lemma page_sizes_app xs ys :
  page_sizes limit xs →
  Forall (λ x, ∀ pg n, x.1 ≠ ReqPopular pg n) ys →
  page_sizes limit (xs ++ ys).
Proof.
  intros Hxs Hys i pg n resp Hi.
  destruct (decide (i < length xs)%nat) as [Hlt|Hge].
  - rewrite lookup_app_l in Hi by done.
    rewrite fetched_before_app by lia. by eapply Hxs.
  - rewrite lookup_app_r in Hi by lia.
    eapply Forall_lookup_1 in Hi; [|exact Hys]. by destruct (Hi pg n).
Qed.

Lemma page_sizes_listing xs g resp :
  page_sizes limit xs →
  fetched_before (length xs) xs = total_processed g →
  total_processed g < limit →
  page_sizes limit (xs ++ [(listing_request limit g, resp)]).
Proof.
  intros Hxs Hcount Hlt i pg n r Hi.
  destruct (decide (i < length xs)%nat) as [Hi'|Hge].
  - rewrite lookup_app_l in Hi by done.
    rewrite fetched_before_app by lia. by eapply Hxs.
  - rewrite lookup_app_r in Hi by lia.
    apply list_lookup_singleton_Some in Hi as [Hi E].
    assert (i = length xs) as -> by lia.
    rewrite fetched_before_app, Hcount by lia.
    unfold listing_request in E. injection E as _ <- _. lia.
Qed.

Lemma quiet_not_listing xs :
  Forall quiet xs → Forall (λ x, ∀ pg n, x.1 ≠ ReqPopular pg n) xs.
Proof.
  intros H. eapply Forall_impl; [exact H|].
  intros [req resp] Hq pg n. by destruct req.
Qed.

Lemma item_log_page_sizes xs g movie_slug k evs :
  page_sizes limit xs →
  fetched_before (length xs) xs = total_processed g →
  item_log movie_slug k evs →
  fetched_before (length (xs ++ exchanges evs)) (xs ++ exchanges evs)
    = total_processed g + 1
  ∧ page_sizes limit (xs ++ exchanges evs).
Proof.
  intros Hxs Hcount (resp & ys & -> & Hq)%item_log_exchanges. split.
  - rewrite fetched_before_all in *. rewrite filter_app, filter_cons. simpl.
    rewrite (quiet_not_details ys Hq), length_app. simpl. lia.
  - apply page_sizes_app; [done|]. constructor; [done|].
    by apply quiet_not_listing.
Qed.

Lemma reach_page_sizes ph n g l :
  reach w limit start ph n g l →
  fetched_before (length (exchanges l)) (exchanges l) = total_processed g
  ∧ page_sizes limit (exchanges l).
Proof.
  induction 1 as [|n g l i resp b x pm _ [IHc IHp] Hlt _ T _
                  |n g l ms k evs mo _ [IHc IHp] _ Hi _ _ _
                  |n g l ms k evs mo _ [IHc IHp] _ Hi _ _ _
                  |n g l _ IH]; simpl.
  - split; [done|]. by intros i pg n resp.
  - rewrite exchanges_app, (throttled_exchanges _ _ _ T). split.
    + rewrite fetched_before_all in *. rewrite filter_app, length_app.
      rewrite <- IHc. simpl. lia.
    + by apply page_sizes_listing.
  - rewrite exchanges_app. by eapply item_log_page_sizes.
  - change (EYield (movies g ++ [mo]) (page g) :: evs ++ l)
      with ([EYield (movies g ++ [mo]) (page g)] ++ evs ++ l).
    rewrite exchanges_app, exchanges_app, app_nil_r.
    by eapply item_log_page_sizes.
  - done.
Qed.

Lemma loop_exit_page_sizes fuel x l :
  loop_exit w limit start fuel x l → page_sizes limit (exchanges (final_log x l)).
Proof.
  assert (∀ g l0, exchanges (last_yield g ++ l0) = exchanges l0) as Hlast.
  { intros g l0. unfold last_yield. destruct (movies g); [done|].
    by rewrite exchanges_app, app_nil_r. }
  destruct 1 as [n g l Hr Hge|n g l resp b Hr Hlt T He|g l Hr Hlt
                |e n g l resp b Hr Hlt T|e n g l ms k evs Hr Hlt Hi]; simpl;
    rewrite ?Hlast; apply reach_page_sizes in Hr as [Hc Hp]; try done.
  - rewrite exchanges_app, (throttled_exchanges _ _ _ T). by apply page_sizes_listing.
  - rewrite exchanges_app, (throttled_exchanges _ _ _ T). by apply page_sizes_listing.
  - rewrite exchanges_app. by eapply item_log_page_sizes.
Qed.

(** *** Batches *)

Lemma reach_batches ph n g l :
  reach w limit start ph n g l →
  Forall (λ k, k = BATCH_SIZE) (batch_sizes (yields l))
  ∧ (length (movies g) < BATCH_SIZE)%nat
  ∧ Z.of_nat (sum_list (batch_sizes (yields l))) + Z.of_nat (length (movies g))
    = total_processed g
  ∧ 0 ≤ total_processed g ≤ Z.max 0 limit.
Proof.
  unfold batch_sizes.
  induction 1 as [|n g l i resp b x pm _ IH Hlt _ T _
                  |n g l ms k evs mo _ (IHb & IHm & IHs & IHt) Hlt Hi _ _ Hlen
                  |n g l ms k evs mo _ (IHb & IHm & IHs & IHt) Hlt Hi _ _ Hlen
                  |n g l _ IH]; simpl.
  - repeat split; [constructor|unfold BATCH_SIZE|..]; lia.
  - by rewrite yields_app, (throttled_yields _ _ _ T), app_nil_r.
  - rewrite yields_app, (item_log_yields _ _ _ Hi), app_nil_r.
    assert (length (movies g ++ [mo]) = S (length (movies g))) as Hl
      by (rewrite length_app; simpl; lia).
    rewrite Hl in *. repeat split; try done; lia.
  - change (EYield (movies g ++ [mo]) (page g) :: evs ++ l)
      with ([EYield (movies g ++ [mo]) (page g)] ++ evs ++ l).
    rewrite yields_app, yields_app, (item_log_yields _ _ _ Hi), app_nil_r.
    assert (length (movies g ++ [mo]) = S (length (movies g))) as Hl
      by (rewrite length_app; simpl; lia).
    rewrite fmap_app, sum_list_with_app. simpl. rewrite Hl in *.
    repeat split; try lia.
    apply Forall_app. split; [done|]. repeat constructor. lia.
  - done.
Qed.

Lemma sizes_shape (Y tail : list nat) :
  Forall (λ k, k = BATCH_SIZE) Y →
  (tail = [] ∨ ∃ k, tail = [k] ∧ (0 < k ≤ BATCH_SIZE)%nat) →
  (∀ i k, (Y ++ tail) !! i = Some k → (S i < length (Y ++ tail))%nat →
     k = BATCH_SIZE)
  ∧ (∀ k, last (Y ++ tail) = Some k → (0 < k ≤ BATCH_SIZE)%nat).
Proof.
  intros HY [-> |(k0 & -> & Hk0)].
  - rewrite app_nil_r. split.
    + intros i k Hi _. by eapply Forall_lookup_1 in Hi; [|exact HY].
    + intros k Hk. apply last_Some_elem_of in Hk.
      pose proof (proj1 (Forall_forall _ _) HY _ Hk) as ->. unfold BATCH_SIZE. lia.
  - split.
    + intros i k Hi Hlen. rewrite length_app in Hlen. simpl in Hlen.
      rewrite lookup_app_l in Hi by lia.
      by eapply Forall_lookup_1 in Hi; [|exact HY].
    + intros k. rewrite last_snoc. by intros [= <-].
Qed.

Lemma yields_last_yield g l :
  yields (last_yield g ++ l)
  = yields l ++ match movies g with [] => [] | _ => [(movies g, page g)] end.
Proof.
  unfold last_yield. destruct (movies g); [by rewrite app_nil_r|].
  by rewrite yields_app.
Qed.

Lemma exchanges_last_yield g l : exchanges (last_yield g ++ l) = exchanges l.
Proof.
  unfold last_yield. destruct (movies g); [done|].
  by rewrite exchanges_app, app_nil_r.
Qed.

(** Batches of [BATCH_SIZE], then what is left over if anything is. *)
Lemma reach_final_sizes ph n g l :
  reach w limit start ph n g l →
  ∃ tail,
    batch_sizes (yields (last_yield g ++ l)) = batch_sizes (yields l) ++ tail
    ∧ (tail = [] ∨ ∃ k, tail = [k] ∧ (0 < k ≤ BATCH_SIZE)%nat)
    ∧ Z.of_nat (sum_list (batch_sizes (yields (last_yield g ++ l))))
      = total_processed g.
Proof.
  intros (_ & Hm & Hs & _)%reach_batches.
  rewrite yields_last_yield. unfold batch_sizes in *. rewrite fmap_app.
  destruct (movies g) as [|m ms] eqn:E.
  - exists []. simpl in *. rewrite app_nil_r. split; [done|]. split; [by left|lia].
  - exists [length (m :: ms)]. split; [done|]. split.
    + right. eexists. split; [done|]. simpl in *. lia.
    + rewrite sum_list_with_app. simpl in *. lia.
Qed.

Lemma loop_exit_batches fuel x l :
  loop_exit w limit start fuel x l →
  let sizes := batch_sizes (yields (final_log x l)) in
  let xs := exchanges (final_log x l) in
  (∀ i k, sizes !! i = Some k → (S i < length sizes)%nat → k = BATCH_SIZE)
  ∧ (∀ k, last sizes = Some k → (0 < k ≤ BATCH_SIZE)%nat)
  ∧ (final_result x = Ok LimitReached →
       Z.of_nat (sum_list sizes) = Z.max 0 limit)
  ∧ (final_result x = Ok EmptyPage →
       Z.of_nat (sum_list sizes) < limit ∧
       ∃ pg k resp, last xs = Some (ReqPopular pg k, resp) ∧ empty_page resp)
  ∧ (∀ stop, final_result x = Ok stop → stop ≠ OutOfFuel →
       Z.of_nat (sum_list sizes) = fetched_before (length xs) xs).
Proof.
  destruct 1 as [n g l Hr Hge|n g l resp b Hr Hlt T He|g l Hr Hlt
                |e n g l resp b Hr Hlt T|e n g l ms k evs Hr Hlt Hi]; simpl.
  - destruct (reach_final_sizes _ _ _ _ Hr) as (tail & -> & Htail & Hsum).
    pose proof (reach_batches _ _ _ _ Hr) as (HY & _ & _ & Ht).
    pose proof (reach_page_sizes _ _ _ _ Hr) as [Hc _].
    destruct (sizes_shape _ _ HY Htail) as [H1 H2].
    rewrite exchanges_last_yield.
    split; [exact H1|]. split; [exact H2|]. split; [intros _; lia|].
    split; [done|]. intros _ _ _. by rewrite Hc.
  - assert (reach w limit start AtWhile n g l) as Hr' by done.
    apply reach_final_sizes in Hr' as (tail & Hy & Htail & Hsum).
    pose proof (reach_batches _ _ _ _ Hr) as (HY & _ & _ & Ht).
    pose proof (reach_page_sizes _ _ _ _ Hr) as [Hc _].
    assert (yields (last_yield g ++ b ++ l) = yields (last_yield g ++ l)) as ->.
    { rewrite !yields_last_yield, yields_app, (throttled_yields _ _ _ T).
      by rewrite app_nil_r. }
    rewrite Hy in *. destruct (sizes_shape _ _ HY Htail) as [H1 H2].
    rewrite exchanges_last_yield, exchanges_app, (throttled_exchanges _ _ _ T).
    split; [exact H1|]. split; [exact H2|]. split; [done|]. split.
    + intros _. split; [lia|].
      eexists _, _, resp. split; [apply last_snoc|done].
    + intros _ _ _. rewrite fetched_before_all in *.
      rewrite filter_app, length_app. simpl. lia.
  - pose proof (reach_batches _ _ _ _ Hr) as (HY & _ & _ & Ht).
    destruct (sizes_shape _ [] HY (or_introl eq_refl)) as [H1 H2].
    rewrite app_nil_r in *.
    split; [exact H1|]. split; [exact H2|]. split; [done|]. split; [done|].
    by intros stop [= <-].
  - pose proof (reach_batches _ _ _ _ Hr) as (HY & _ & _ & Ht).
    destruct (sizes_shape _ [] HY (or_introl eq_refl)) as [H1 H2].
    rewrite yields_app, (throttled_yields _ _ _ T), !app_nil_r in *.
    split; [exact H1|]. split; [exact H2|]. done.
  - pose proof (reach_batches _ _ _ _ Hr) as (HY & _ & _ & Ht).
    destruct (sizes_shape _ [] HY (or_introl eq_refl)) as [H1 H2].
    rewrite yields_app, (item_log_yields _ _ _ Hi), !app_nil_r in *.
    split; [exact H1|]. split; [exact H2|]. done.
Qed.

(** *** Pages *)

Lemma reach_pages ph n g l :
  reach w limit start ph n g l →
  page g = start + Z.of_nat n
  ∧ (∀ j, (j < n + match ph with InFor => 1 | AtWhile => 0 end)%nat →
       ∃ i k x page_movies,
         1 ≤ k ≤ 20 ∧
         json (respond w i (ReqPopular (start + Z.of_nat j) k))
         = Some (JPopular (x :: page_movies)))
  ∧ Forall (λ y, start ≤ y.2 ≤ page g) (yields l)
  ∧ StronglySorted Z.le (yields l).*2.
Proof.
  induction 1 as [|n g l i resp b x pm _ (IHp & IHn & IHy & IHs) Hlt -> T Hj
                  |n g l ms k evs mo _ (IHp & IHn & IHy & IHs) Hlt Hi _ _ Hlen
                  |n g l ms k evs mo _ (IHp & IHn & IHy & IHs) Hlt Hi _ _ Hlen
                  |n g l _ (IHp & IHn & IHy & IHs)]; simpl.
  - split; [lia|]. split; [intros j; lia|]. split; constructor.
  - rewrite yields_app, (throttled_yields _ _ _ T), app_nil_r.
    repeat split; try done. intros j Hj'.
    destruct (decide (j < n)%nat) as [|Hge]; [apply IHn; lia|].
    assert (j = n) as -> by lia. rewrite <- IHp. unfold listing_request in Hj.
    eexists i, _, x, pm. split; [|exact Hj]. lia.
  - by rewrite yields_app, (item_log_yields _ _ _ Hi), app_nil_r.
  - change (EYield (movies g ++ [mo]) (page g) :: evs ++ l)
      with ([EYield (movies g ++ [mo]) (page g)] ++ evs ++ l).
    rewrite yields_app, yields_app, (item_log_yields _ _ _ Hi), app_nil_r.
    repeat split; try done.
    + apply Forall_app. split; [done|]. repeat constructor; simpl; lia.
    + rewrite fmap_app. apply StronglySorted_app. repeat split; try done.
      * intros x1 x2 (y & -> & Hy)%list_elem_of_fmap Hx2.
        apply list_elem_of_singleton in Hx2 as ->.
        pose proof (proj1 (Forall_forall _ _) IHy _ Hy) as Hb. simpl in *. lia.
      * repeat constructor.
  - repeat split; try lia.
    + intros j Hj. apply IHn. lia.
    + eapply Forall_impl; [exact IHy|]. simpl. lia.
    + done.
Qed.

Lemma loop_exit_pages fuel x l :
  loop_exit w limit start fuel x l →
  Forall (λ y, start ≤ y.2) (yields (final_log x l))
  ∧ StronglySorted Z.le (yields (final_log x l)).*2.
Proof.
  assert (∀ ph n g l0, reach w limit start ph n g l0 →
    Forall (λ y, start ≤ y.2) (yields l0) ∧ StronglySorted Z.le (yields l0).*2)
    as Hplain.
  { intros ph n g l0 (_ & _ & Hy & Hs)%reach_pages. split; [|done].
    eapply Forall_impl; [exact Hy|]. simpl. lia. }
  assert (∀ ph n g l0, reach w limit start ph n g l0 →
    Forall (λ y, start ≤ y.2) (yields (last_yield g ++ l0))
    ∧ StronglySorted Z.le (yields (last_yield g ++ l0)).*2) as Hlast.
  { intros ph n g l0 (Hp & _ & Hy & Hs)%reach_pages.
    rewrite yields_last_yield. destruct (movies g); [rewrite app_nil_r|].
    - split; [|done]. eapply Forall_impl; [exact Hy|]. simpl. lia.
    - split.
      + apply Forall_app. split; [|repeat constructor; simpl; lia].
        eapply Forall_impl; [exact Hy|]. simpl. lia.
      + rewrite fmap_app. apply StronglySorted_app. repeat split; try done.
        * intros x1 x2 (y & -> & Hy')%list_elem_of_fmap Hx2.
          apply list_elem_of_singleton in Hx2 as ->.
          pose proof (proj1 (Forall_forall _ _) Hy _ Hy') as Hb. simpl in *. lia.
        * repeat constructor. }
  destruct 1 as [n g l Hr Hge|n g l resp b Hr Hlt T He|g l Hr Hlt
                |e n g l resp b Hr Hlt T|e n g l ms k evs Hr Hlt Hi]; simpl.
  - by eapply Hlast.
  - assert (yields (last_yield g ++ b ++ l) = yields (last_yield g ++ l)) as ->.
    { rewrite !yields_last_yield, yields_app, (throttled_yields _ _ _ T).
      by rewrite app_nil_r. }
    by eapply Hlast.
  - by eapply Hplain.
  - rewrite yields_app, (throttled_yields _ _ _ T), app_nil_r. by eapply Hplain.
  - rewrite yields_app, (item_log_yields _ _ _ Hi), app_nil_r. by eapply Hplain.
Qed.

(** The loop is left once a page is empty. *)
Lemma loop_exit_fuel fuel x l K :
  loop_exit w limit start fuel x l →
  start ≤ K → (Z.to_nat (K - start) < fuel)%nat →
  (∀ i k, 1 ≤ k ≤ 20 → empty_page (respond w i (ReqPopular K k))) →
  final_result x ≠ Ok OutOfFuel.
Proof.
  intros Hexit HK Hfuel Hempty.
  destruct Hexit as [n g l Hr Hge|n g l resp b Hr Hlt T He|g l Hr Hlt
                    |e n g l resp b Hr Hlt T|e n g l ms k evs Hr Hlt Hi];
    simpl; try done.
  apply reach_pages in Hr as (_ & Hn & _).
  destruct (Hn (Z.to_nat (K - start))) as (i & k & x & pm & Hk & Hj); [lia|].
  rewrite Z2Nat.id in Hj by lia. replace (start + (K - start)) with K in Hj by lia.
  destruct (Hempty i k Hk) as [He|He]; congruence.
Qed.

(** *** The limiter before each Trakt request *)

Lemma preceded_app req evs l : preceded req evs → preceded req (evs ++ l).
Proof. destruct req, evs as [|[]]; simpl; try done. Qed.

Lemma guarded_app evs l : guarded evs → guarded l → guarded (evs ++ l).
Proof.
  intros Hevs Hl. induction evs as [|e evs IH]; [done|].
  destruct e; simpl in *; try by apply IH.
  destruct Hevs as [Hp Hevs]. split; [by apply preceded_app|by apply IH].
Qed.

Lemma throttled_guarded req resp b :
  (∀ tmdb_id, req ≠ ReqKeywords tmdb_id) → throttled req resp b → guarded b.
Proof.
  intros Hreq [t pre Hpre]. simpl. split.
  - destruct req; try done. by destruct (Hreq tmdb_id).
  - by destruct Hpre as [-> |[secs ->]].
Qed.

Lemma item_log_guarded movie_slug k evs :
  item_log movie_slug k evs →
  guarded evs ∧
  (k = 3%nat → ∃ resp l, evs = EGet (ReqRatings movie_slug) resp :: l).
Proof.
  induction 1 as [resp b T|l resp b _ [IH _] T|l resp b _ [IH _] T
                 |l tmdb_id resp _ [IH Hhead]].
  - split; [eapply throttled_guarded; [|eassumption]; done|done].
  - split; [|done]. apply guarded_app; [eapply throttled_guarded; [|eassumption]; done|done].
  - split; [apply guarded_app; [eapply throttled_guarded; [|eassumption]; done|done]|].
    intros _. destruct T as [t pre _]. by eexists _, _.
  - split; [|done]. destruct (Hhead eq_refl) as (r & l' & ->). done.
Qed.

Lemma reach_guarded ph n g l : reach w limit start ph n g l → guarded l.
Proof.
  induction 1 as [|n g l i resp b x pm _ IH Hlt _ T _
                  |n g l ms k evs mo _ IH _ Hi _ _ _
                  |n g l ms k evs mo _ IH _ Hi _ _ _
                  |n g l _ IH]; simpl; try done.
  - apply guarded_app; [eapply throttled_guarded; [|eassumption]; done|done].
  - apply guarded_app; [by eapply item_log_guarded|done].
  - apply guarded_app; [by eapply item_log_guarded|done].
Qed.

Lemma loop_exit_guarded fuel x l :
  loop_exit w limit start fuel x l → guarded (final_log x l).
Proof.
  assert (∀ g l0, guarded l0 → guarded (last_yield g ++ l0)) as Hlast.
  { intros g l0 H. unfold last_yield. by destruct (movies g). }
  destruct 1 as [n g l Hr Hge|n g l resp b Hr Hlt T He|g l Hr Hlt
                |e n g l resp b Hr Hlt T|e n g l ms k evs Hr Hlt Hi]; simpl;
    apply reach_guarded in Hr; try done.
  - by apply Hlast.
  - apply Hlast, guarded_app; [eapply throttled_guarded; [|eassumption]; done|done].
  - apply guarded_app; [eapply throttled_guarded; [|eassumption]; done|done].
  - apply guarded_app; [by eapply item_log_guarded|done].
Qed.

(** *** Keyword lookups of a run that returns *)

Lemma reach_served ph n g l :
  reach w limit start ph n g l → Forall keywords_served l.
Proof.
  induction 1 as [|n g l i resp b x pm _ IH Hlt _ T _
                  |n g l ms k evs mo _ IH _ _ _ Hs _
                  |n g l ms k evs mo _ IH _ _ _ Hs _
                  |n g l _ IH]; try done.
  - apply Forall_app. split; [eapply throttled_served; [|eassumption]; done|done].
  - by apply Forall_app.
  - constructor; [done|]. by apply Forall_app.
Qed.

Lemma loop_exit_served fuel x l stop :
  loop_exit w limit start fuel x l → final_result x = Ok stop →
  Forall keywords_served (final_log x l).
Proof.
  assert (∀ g l0, Forall keywords_served l0 →
            Forall keywords_served (last_yield g ++ l0)) as Hlast.
  { intros g l0 H. unfold last_yield. destruct (movies g); [done|].
    by constructor. }
  destruct 1 as [n g l Hr Hge|n g l resp b Hr Hlt T He|g l Hr Hlt
                |e n g l resp b Hr Hlt T|e n g l ms k evs Hr Hlt Hi]; simpl;
    try done; intros _; apply reach_served in Hr; try done.
  - by apply Hlast.
  - apply Hlast, Forall_app. split; [eapply throttled_served; [|eassumption]; done|done].
Qed.

End Runs.

Section Discipline.

Lemma guarded_discipline l : guarded l → limiter_discipline (rev l).
Proof.
  induction l as [|e l IH]; intros Hg i req resp Hi; [done|].
  simpl in Hi. assert (guarded l) as Hl by (destruct e; simpl in Hg; tauto).
  destruct (decide (i < length (rev l))%nat) as [Hlt|Hge].
  - rewrite lookup_app_l in Hi by done.
    specialize (IH Hl i req resp Hi). simpl.
    assert (∀ j e0, rev l !! j = Some e0 → (rev l ++ [e]) !! j = Some e0) as Hext.
    { intros j e0 Hj. rewrite lookup_app_l; [done|by eapply lookup_lt_Some]. }
    destruct req;
      first [ destruct IH as (j & a & -> & IH); exists j, a; split; [done|];
              by apply Hext
            | destruct IH as (j & a & r & -> & IH); exists j, a, r;
              split; [done|]; by apply Hext ].
  - rewrite lookup_app_r in Hi by lia.
    apply list_lookup_singleton_Some in Hi as [Hi ->].
    simpl in Hg. destruct Hg as [Hp _].
    assert (i = length (rev l)) as -> by lia.
    destruct l as [|e' l']; [by destruct req|]. simpl.
    assert (∀ e0, e0 = e' →
      ((rev l' ++ [e']) ++ [EGet req resp]) !! length (rev l') = Some e0) as Hprev.
    { intros e0 ->. rewrite lookup_app_l by (rewrite length_app; simpl; lia).
      by rewrite list_lookup_middle. }
    rewrite length_app. simpl. rewrite Nat.add_1_r.
    destruct req; destruct e' as [| |[]|]; simpl in Hp; try done;
      first [ eexists _, _, _; split; [done|]; by apply Hprev
            | eexists _, _; split; [done|]; by apply Hprev ].
Qed.

End Discipline.

(** ** Claims on the store and on filenames *)

(** C9: the filename is a function of the title and the Trakt identifier
    alone, and two movies with distinct identifiers get distinct filenames,
    whatever their titles. *)
Theorem get_filename_distinct (rt : Runtime) (m1 m2 : Movie) :
  (title m1 = title m2 → trakt (ids m1) = trakt (ids m2) →
   get_filename rt m1 = get_filename rt m2) ∧
  (trakt (ids m1) ≠ trakt (ids m2) → get_filename rt m1 ≠ get_filename rt m2).
Proof.
  split.
  - unfold get_filename. by intros -> ->.
  - intros Hne Heq. by apply Hne, (get_filename_trakt rt).
Qed.

(** The titles ["A b"] and ["A_b"] are sanitized to the same text, and
    ["A_1"] with identifier 2 is told from ["A"] with identifier 12. *)
Lemma get_filename_distinct_witness :
  clean_title sample_runtime (lit "A b") = clean_title sample_runtime (lit "A_b") ∧
  get_filename sample_runtime (sample_movie "A b" 1)
    ≠ get_filename sample_runtime (sample_movie "A_b" 2) ∧
  get_filename sample_runtime (sample_movie "A_1" 2)
    ≠ get_filename sample_runtime (sample_movie "A" 12).
Proof.
  split; [reflexivity|]. split.
  - apply (get_filename_distinct sample_runtime
             (sample_movie "A b" 1) (sample_movie "A_b" 2)). simpl. lia.
  - apply (get_filename_distinct sample_runtime
             (sample_movie "A_1" 2) (sample_movie "A" 12)). simpl. lia.
Defined.

(** C4 (the code departs from it): a batch that lists the identifier 42
    twice, saved to an empty store, leaves 42 twice in [fetched_ids]. *)
Theorem save_movies_duplicate_ids :
  fetched_ids
    (FileHandler._load_index
       (FileHandler.save_movies sample_runtime sample_stamps
          [sample_movie "A" 42; sample_movie "A" 42] 1 empty_disk))
  = Some [42; 42].
Proof. vm_compute. reflexivity. Qed.

(** The same through [get_top_movies]: with a limit of 25 the second
    listing request asks for page 2 of size 5, the entries 6 to 10, which
    the first page of size 20 held already; [fetched_ids] of the service is
    not updated during the run, so they are fetched again and the batch
    lists them twice. *)
Lemma get_top_movies_repeats_movies :
  let w := catalog_world (sample_catalog 30 false) 1 not_found in
  let batches :=
    yields (log (TraktService.get_top_movies sample_runtime w 5 25
                   (init_state w (TraktService.__init__ empty_disk))).2) in
  index_ids (save_batches sample_runtime (λ _, sample_stamps) 0 batches empty_disk)
  = Z.of_nat <$> (seq 1 20 ++ seq 6 5).
Proof. vm_compute. reflexivity. Qed.

(** C5 (the code departs from it): two overlapping calls from the empty
    store, the first with a batch that lists the movie 42 twice. The second
    call is passed over as the claim says, but the first has left two index
    entries for 42, for the one file: [save_movies] compares the batch with
    the index as it was before the call only. *)
Theorem save_movies_overlap_two_entries :
  let b1 := [sample_movie "A" 42; sample_movie "A" 42] in
  let b2 := [sample_movie "A" 42] in
  let d1 := FileHandler.save_movies sample_runtime sample_stamps b1 1 empty_disk in
  let d2 := FileHandler.save_movies sample_runtime sample_stamps b2 2 d1 in
  d2 = d1
  ∧ length (entries_of 42 d2) = 2%nat
  ∧ index_ids d2 = [42; 42]
  ∧ FileHandler.get_saved_count d2 = 1.
Proof. vm_compute. repeat split; reflexivity. Qed.

(** What does hold: a batch whose movies are all indexed leaves the store
    as it is: no file, no index entry, the index file untouched. And from a
    store whose index and files agree, two calls with batches that each list
    an identifier once, overlapping or not, leave exactly one index entry
    and exactly one file for every identifier of the two batches. *)
Lemma save_movies_idempotent (rt : Runtime) (stamps1 stamps2 : nat → pystr)
    (b1 b2 : list Movie) (p1 p2 : Z) (d : Disk) :
  ((∀ m, m ∈ b1 → trakt (ids m) ∈ index_ids d) →
   FileHandler.save_movies rt stamps1 b1 p1 d = d) ∧
  (consistent rt d → NoDup (movie_ids b1) → NoDup (movie_ids b2) →
   let d2 := FileHandler.save_movies rt stamps2 b2 p2
               (FileHandler.save_movies rt stamps1 b1 p1 d) in
   ∀ x, x ∈ movie_ids b1 ++ movie_ids b2 →
     length (entries_of x d2) = 1%nat ∧
     ∃ f, file_of x d2 f ∧ ∀ f', file_of x d2 f' → f' = f).
Proof.
  split.
  - intros H. by apply save_movies_noop, new_movies_nil.
  - intros Hd H1 H2 d2 x Hx.
    assert (consistent rt d2) as Hd2
      by (apply save_movies_consistent; [by apply save_movies_consistent|done]).
    assert (x ∈ index_ids d2) as Hin.
    { apply elem_of_app in Hx as [Hx|Hx].
      - apply save_movies_covers. left. apply save_movies_covers. by right.
      - apply save_movies_covers. by right. }
    split; [by apply (consistent_one_entry rt)|by apply (consistent_one_file rt)].
Qed.

(** Two calls that overlap on the identifier 42, from the empty store. *)
Lemma save_movies_idempotent_witness :
  let b1 := [sample_movie "A" 42; sample_movie "B" 7] in
  let b2 := [sample_movie "A" 42; sample_movie "C" 9] in
  let d1 := FileHandler.save_movies sample_runtime sample_stamps b1 1 empty_disk in
  let d2 := FileHandler.save_movies sample_runtime sample_stamps b2 2 d1 in
  FileHandler.save_movies sample_runtime sample_stamps b1 5 d1 = d1 ∧
  length (entries_of 42 d2) = 1%nat ∧
  ∃ f, file_of 42 d2 f ∧ ∀ f', file_of 42 d2 f' → f' = f.
Proof.
  intros b1 b2 d1 d2. split.
  - apply (save_movies_idempotent sample_runtime sample_stamps sample_stamps
             b1 b1 5 5 d1).
    intros m Hm. unfold b1 in Hm.
    repeat (apply elem_of_cons in Hm as [-> |Hm]; [compute_done|]).
    by apply elem_of_nil in Hm.
  - apply (save_movies_idempotent sample_runtime sample_stamps sample_stamps
             b1 b2 1 2 empty_disk).
    + apply consistent_empty_disk.
    + compute_done.
    + compute_done.
    + compute_done.
Defined.

(** ** Claims on the clients *)

(** The generator of a service created on a store whose cursor is [P]
    sends its first request to the listing, for page [P + 1]. *)
Lemma first_listing_page (rt : Runtime) (w : World) (fuel : nat) (limit : Z)
    (d : Disk) :
  0 < limit → fuel ≠ 0%nat →
  head (requests
          (log (TraktService.get_top_movies rt w fuel limit
                  (init_state w (TraktService.__init__ d))).2))
  = Some (ReqPopular (FileHandler.get_last_page d + 1) (Z.min limit 20)).
Proof.
  intros Hlimit Hfuel.
  destruct (TraktService.get_top_movies _ _ _ _ _) as [r s'] eqn:E.
  apply get_top_movies_exit in E as (x & l & Hexit & _ & Hlog).
  simpl. rewrite Hlog.
  by apply (loop_exit_first w limit _ fuel x l Hlimit Hfuel) in Hexit.
Qed.

(** A store whose cursor is 3: the first request is for page 4. *)
Lemma first_listing_page_witness :
  FileHandler.get_last_page disk_at_page_3 = 3 ∧
  head (requests
          (log (TraktService.get_top_movies sample_runtime
                  (catalog_world (sample_catalog 3 true) 1 not_found) 5 2
                  (init_state (catalog_world (sample_catalog 3 true) 1 not_found)
                     (TraktService.__init__ disk_at_page_3))).2))
  = Some (ReqPopular 4 2).
Proof.
  split; [reflexivity|].
  apply (first_listing_page sample_runtime
           (catalog_world (sample_catalog 3 true) 1 not_found) 5 2 disk_at_page_3);
    lia.
Defined.

(** C1 (the code departs from it): a run of [main] that is cut short and its
    rerun. The server lists a hundred movies, twenty to a page, and fails
    on the details of movie 51. The first run saves the batch of the movies
    1 to 50 with page 3, the page it was reading; the rerun, on a server
    that is well again, starts at page 4: the movies 51 to 60, the rest of
    page 3, are never fetched. *)
Theorem resume_skips_movies :
  let catalog := sample_catalog 100 false in
  let w1 := faulty_world catalog (lit "movie-51") in
  let w2 := catalog_world catalog 1 not_found in
  let d1 := main sample_runtime w1 (λ _, sample_stamps) 10 empty_disk in
  let d2 := main sample_runtime w2 (λ _, sample_stamps) 10 d1 in
  index_ids d1 = Z.of_nat <$> seq 1 50
  ∧ FileHandler.get_last_page d1 = 3
  ∧ start_page (TraktService.__init__ d1) = 4
  ∧ listing_pages
      (log (TraktService.get_top_movies sample_runtime w2 10 11950
              (init_state w2 (TraktService.__init__ d1))).2) = [4; 5; 6]
  ∧ index_ids d2 = Z.of_nat <$> (seq 1 50 ++ seq 61 40).
Proof. vm_compute. repeat split; reflexivity. Qed.

(** The same without any error: a run that ends on its limit has read the
    pages 1 and 2 and yields its batch with page 3, and a service created
    on the store it leaves starts at page 4; page 3 is never asked for. *)
Lemma resume_skips_page :
  let w := catalog_world (sample_catalog 100 false) 1 not_found in
  let out := TraktService.get_top_movies sample_runtime w 10 40
               (init_state w (TraktService.__init__ empty_disk)) in
  let d1 := save_batches sample_runtime (λ _, sample_stamps) 0
              (yields (log out.2)) empty_disk in
  listing_pages (log out.2) = [1; 2]
  ∧ (yields (log out.2)).*2 = [3]
  ∧ index_ids d1 = Z.of_nat <$> seq 1 40
  ∧ start_page (TraktService.__init__ d1) = 4.
Proof. vm_compute. repeat split; reflexivity. Qed.

(** C2 (as the code has it): after [save_movies] on a batch with a movie
    that is not indexed yet, [get_last_page] is the page of the call; on a
    batch whose movies are all indexed the store, and so the cursor, is
    left as it was; and in a run of [main] the cursor never decreases from
    one call of [save_movies] to the next. *)
Theorem save_movies_cursor (rt : Runtime) (w : World) (stamps : nat → pystr)
    (run_stamps : nat → nat → pystr) (fuel : nat) (ms : list Movie)
    (current_page : Z) (d : Disk) :
  ((∃ m, m ∈ ms ∧ trakt (ids m) ∉ index_ids d) →
   FileHandler.get_last_page (FileHandler.save_movies rt stamps ms current_page d)
   = current_page) ∧
  ((∀ m, m ∈ ms → trakt (ids m) ∈ index_ids d) →
   FileHandler.save_movies rt stamps ms current_page d = d) ∧
  non_decreasing
    (FileHandler.get_last_page d
       :: persisted_pages rt run_stamps 0 (main_batches rt w fuel d) d).
Proof.
  split; [|split].
  - intros (m & Hm & Hnew). apply get_last_page_save.
    intros E. apply Hnew. by eapply new_movies_nil.
  - intros H. by apply save_movies_noop, new_movies_nil.
  - apply persisted_pages_non_decreasing; unfold main_batches;
      destruct (_ =? 0); try by constructor.
    + destruct (TraktService.get_top_movies _ _ _ _ _) as [r s'] eqn:E.
      apply get_top_movies_exit in E as (x & l & Hexit & _ & Hlog).
      simpl. rewrite Hlog. by apply loop_exit_pages in Hexit as [_ ?].
    + destruct (TraktService.get_top_movies _ _ _ _ _) as [r s'] eqn:E.
      apply get_top_movies_exit in E as (x & l & Hexit & _ & Hlog).
      simpl. rewrite Hlog. apply loop_exit_pages in Hexit as [Hge _].
      eapply Forall_impl; [exact Hge|]. simpl. lia.
Qed.

Lemma save_movies_cursor_witness :
  FileHandler.get_last_page
    (FileHandler.save_movies sample_runtime sample_stamps
       [sample_movie "A" 42; sample_movie "B" 7] 5 disk_at_page_3) = 5.
Proof.
  apply (save_movies_cursor sample_runtime
           (catalog_world [] 1 not_found) sample_stamps (λ _, sample_stamps) 0
           [sample_movie "A" 42; sample_movie "B" 7] 5 disk_at_page_3).
  exists (sample_movie "B" 7). split; [set_solver|]. compute_done.
Defined.

(** The batch [[42]] on a store that has 42 indexed, at page 3: the call
    for page 7 leaves the cursor at 3. *)
Lemma save_movies_cursor_counterexample :
  ¬ (∀ (ms : list Movie) (current_page : Z) (d : Disk),
       FileHandler.get_last_page
         (FileHandler.save_movies sample_runtime sample_stamps ms current_page d)
       = current_page).
Proof.
  intros H. specialize (H [sample_movie "A" 42] 7 disk_at_page_3).
  vm_compute in H. discriminate H.
Qed.

(** C3 (as the code has it): in a run of [get_top_movies] every request to
    Trakt (listing, details, stats, ratings) comes right after a return of
    [_respect_rate_limit]; the keyword request comes right after the
    ratings request, with no call of the limiter in between. *)
Theorem trakt_requests_limited (rt : Runtime) (w : World) (fuel : nat)
    (limit : Z) (svc : TraktService) :
  limiter_discipline
    (rev (log (TraktService.get_top_movies rt w fuel limit (init_state w svc)).2)).
Proof.
  destruct (TraktService.get_top_movies _ _ _ _ _) as [r s'] eqn:E.
  apply get_top_movies_exit in E as (x & l & Hexit & _ & Hlog).
  simpl. rewrite Hlog.
  by apply guarded_discipline, (loop_exit_guarded w limit (start_page svc) fuel).
Qed.

(** One movie with a TMDB identifier: its keyword request is the ninth
    event of the run and the limiter was not called for it. *)
Lemma trakt_requests_limited_counterexample :
  ¬ (∀ (w : World) (fuel : nat) (limit : Z) (svc : TraktService),
       let tr := rev (log (TraktService.get_top_movies sample_runtime w fuel limit
                             (init_state w svc)).2) in
       ∀ i req resp, tr !! i = Some (EGet req resp) →
         ∃ j t, i = S j ∧ tr !! j = Some (ERateLimit t)).
Proof.
  intros H.
  specialize (H (catalog_world (sample_catalog 1 true) 1 not_found) 5%nat 1
                (TraktService.__init__ empty_disk) 8%nat
                (ReqKeywords 1001) not_found).
  destruct H as (j & t & [= <-] & Hj); [by vm_compute|].
  vm_compute in Hj. discriminate Hj.
Qed.

(** C7: in a run of [get_top_movies] every batch but the last has
    [BATCH_SIZE] movies and the last has at most as many; when the
    generator returns, every movie it has fetched has been yielded, the last
    ones in a batch that may be smaller: [limit] movies when the loop ended
    on the limit, fewer when it ended on an empty page, which is then the
    last response of the run. And it does return when some page within
    reach of the fuel is always empty. *)
Theorem get_top_movies_batches (rt : Runtime) (w : World) (fuel : nat)
    (limit : Z) (svc : TraktService) :
  let out := TraktService.get_top_movies rt w fuel limit (init_state w svc) in
  let sizes := batch_sizes (yields (log out.2)) in
  let xs := exchanges (log out.2) in
  (∀ i k, sizes !! i = Some k → (S i < length sizes)%nat → k = BATCH_SIZE)
  ∧ (∀ k, last sizes = Some k → (0 < k ≤ BATCH_SIZE)%nat)
  ∧ (out.1 = Ok LimitReached → Z.of_nat (sum_list sizes) = Z.max 0 limit)
  ∧ (out.1 = Ok EmptyPage →
       Z.of_nat (sum_list sizes) < limit ∧
       ∃ pg k resp, last xs = Some (ReqPopular pg k, resp) ∧ empty_page resp)
  ∧ (∀ stop, out.1 = Ok stop → stop ≠ OutOfFuel →
       Z.of_nat (sum_list sizes) = fetched_before (length xs) xs)
  ∧ (∀ K, start_page svc ≤ K → (Z.to_nat (K - start_page svc) < fuel)%nat →
       (∀ i k, 1 ≤ k ≤ 20 → empty_page (respond w i (ReqPopular K k))) →
       out.1 ≠ Ok OutOfFuel).
Proof.
  intros out sizes xs. subst sizes xs.
  destruct out as [r s'] eqn:E. subst out.
  apply get_top_movies_exit in E as (x & l & Hexit & -> & Hlog).
  simpl. rewrite Hlog.
  destruct (loop_exit_batches w limit _ fuel x l Hexit) as (H1 & H2 & H3 & H4 & H5).
  repeat (split; [done|]).
  intros K HK Hfuel Hempty. by eapply loop_exit_fuel.
Qed.

(** Fifty-three movies and a limit of a hundred: a batch of fifty, then a
    batch of three when page 4 comes back empty. *)
Lemma get_top_movies_batches_witness :
  let w := catalog_world (sample_catalog 53 false) 1 not_found in
  let out := TraktService.get_top_movies sample_runtime w 60 100
               (init_state w (TraktService.__init__ empty_disk)) in
  out.1 ≠ Ok OutOfFuel ∧
  out.1 = Ok EmptyPage ∧
  batch_sizes (yields (log out.2)) = [50; 3]%nat.
Proof.
  intros w out. split; [|split; vm_compute; reflexivity].
  destruct (get_top_movies_batches sample_runtime w 60 100
              (TraktService.__init__ empty_disk)) as (_ & _ & _ & _ & _ & Hstop).
  apply (Hstop 54); [by vm_compute|vm_compute; lia|].
  intros i k Hk. left. simpl. do 2 f_equal.
  rewrite drop_ge; [by rewrite take_nil|].
  change (length (sample_catalog 53 false)) with 53%nat. lia.
Defined.

(** C8 (as the code has it): a keyword lookup answered with 404 gives the
    empty list and raises nothing; answered with another 4xx or 5xx status
    it raises [HTTPError]; and a run of [get_top_movies] that returns has
    had no such answer: the error ends the run. *)
Theorem keywords_not_found (rt : Runtime) (w : World) (fuel : nat) (limit : Z)
    (svc : TraktService) (tmdb_id : Z) (s : St) :
  tmdb_id ≠ 0 →
  let resp := respond w (sent s) (ReqKeywords tmdb_id) in
  let out := TraktService.get_top_movies rt w fuel limit (init_state w svc) in
  (status_code resp = 404 →
   (TMDBService.get_movie_keywords w tmdb_id s).1 = Ok [])
  ∧ (400 ≤ status_code resp < 600 → status_code resp ≠ 404 →
     (TMDBService.get_movie_keywords w tmdb_id s).1
     = Raise (HTTPError (status_code resp)))
  ∧ (∀ stop id r, out.1 = Ok stop → EGet (ReqKeywords id) r ∈ log out.2 →
     ¬ (400 ≤ status_code r < 600 ∧ status_code r ≠ 404)).
Proof.
  intros Hne resp out.
  destruct (get_movie_keywords_log w tmdb_id s Hne) as (s1 & -> & _).
  fold resp. unfold keywords_result, decode, error_status. simpl.
  split; [|split].
  - intros ->. done.
  - intros Hsc Hnf. destruct (Z.eqb_spec (status_code resp) 404) as [|_]; [done|].
    destruct (Z.leb_spec 400 (status_code resp)); [|lia].
    destruct (Z.ltb_spec (status_code resp) 600); [done|lia].
  - intros stop id r Hrun Hin [Hsc Hnf]. subst out.
    destruct (TraktService.get_top_movies _ _ _ _ _) as [r' s'] eqn:E.
    apply get_top_movies_exit in E as (x & l & Hexit & -> & Hlog).
    simpl in *. rewrite Hlog in Hin.
    eapply loop_exit_served in Hexit; [|exact Hrun].
    pose proof (proj1 (Forall_forall _ _) Hexit _ Hin) as Hserved.
    simpl in Hserved. unfold fatal_status, error_status in Hserved.
    destruct (Z.leb_spec 400 (status_code r)); [|lia].
    destruct (Z.ltb_spec (status_code r) 600); [|lia].
    destruct (Z.eqb_spec (status_code r) 404); [lia|done].
Qed.

Lemma keywords_not_found_witness :
  (TMDBService.get_movie_keywords (catalog_world [] 1 not_found) 999
     (init_state (catalog_world [] 1 not_found) (TraktService.__init__ empty_disk))).1
  = Ok [].
Proof.
  apply (keywords_not_found sample_runtime (catalog_world [] 1 not_found) 0 0
           (TraktService.__init__ empty_disk) 999
           (init_state (catalog_world [] 1 not_found)
              (TraktService.__init__ empty_disk))).
  - lia.
  - reflexivity.
Defined.

(** A 300 with a keyword list in its body: neither 2xx nor 404, and nothing
    is raised. *)
Lemma keywords_not_found_counterexample :
  ¬ (∀ (w : World) (tmdb_id : Z) (s : St),
       tmdb_id ≠ 0 →
       let resp := respond w (sent s) (ReqKeywords tmdb_id) in
       status_code resp ≠ 404 → ¬ (200 ≤ status_code resp < 300) →
       ∃ e, (TMDBService.get_movie_keywords w tmdb_id s).1 = Raise e).
Proof.
  intros H.
  set (w := catalog_world [] 1
              {| status_code := 300; json := Some (JKeywords [sample_keyword]) |}).
  destruct (H w 999 (init_state w (TraktService.__init__ empty_disk)))
    as [e He]; [lia|simpl; lia|simpl; lia|].
  vm_compute in He. discriminate He.
Qed.

(** C10: every listing request of a run of [get_top_movies limit] asks for
    [min(limit - total_processed, 20)] entries, between 1 and 20, where
    [total_processed] is the number of movies fetched before it; so a run
    with a limit under 20 and a run with a larger limit ask for the same
    first page with different sizes. *)
Theorem listing_page_sizes (rt : Runtime) (w : World) (fuel : nat)
    (limit limit' : Z) (svc : TraktService) :
  let xs := exchanges (log (TraktService.get_top_movies rt w fuel limit
                              (init_state w svc)).2) in
  let xs' := exchanges (log (TraktService.get_top_movies rt w fuel limit'
                               (init_state w svc)).2) in
  page_sizes limit xs
  ∧ (fuel ≠ 0%nat → 0 < limit < 20 → limit < limit' →
     ∃ n n', head xs.*1 = Some (ReqPopular (start_page svc) n) ∧
             head xs'.*1 = Some (ReqPopular (start_page svc) n') ∧ n < n').
Proof.
  intros xs xs'. subst xs xs'. split.
  - destruct (TraktService.get_top_movies _ _ _ limit _) as [r s'] eqn:E.
    apply get_top_movies_exit in E as (x & l & Hexit & _ & Hlog).
    simpl. rewrite Hlog. by eapply loop_exit_page_sizes.
  - intros Hfuel Hlimit Hlt.
    exists (Z.min limit 20), (Z.min limit' 20). split; [|split; [|lia]].
    + destruct (TraktService.get_top_movies _ _ _ limit _) as [r s'] eqn:E.
      apply get_top_movies_exit in E as (x & l & Hexit & _ & Hlog).
      simpl. rewrite Hlog.
      apply (loop_exit_first w limit _ fuel x l) in Hexit; [done|lia|done].
    + destruct (TraktService.get_top_movies _ _ _ limit' _) as [r s'] eqn:E.
      apply get_top_movies_exit in E as (x & l & Hexit & _ & Hlog).
      simpl. rewrite Hlog.
      apply (loop_exit_first w limit' _ fuel x l) in Hexit; [done|lia|done].
Qed.

(** With a limit of 25 the second listing request asks for five entries;
    with limits of 5 and of 100 the first page is asked with sizes 5 and
    20. *)
Lemma listing_page_sizes_witness :
  let w := catalog_world (sample_catalog 30 false) 1 not_found in
  (requests (log (TraktService.get_top_movies sample_runtime w 5 25
                    (init_state w (TraktService.__init__ empty_disk))).2))
     !! 61%nat = Some (ReqPopular 2 5)
  ∧ ∃ n n',
      head (exchanges (log (TraktService.get_top_movies sample_runtime w 5 5
                              (init_state w (TraktService.__init__ empty_disk))).2)).*1
      = Some (ReqPopular 1 n) ∧
      head (exchanges (log (TraktService.get_top_movies sample_runtime w 5 100
                              (init_state w (TraktService.__init__ empty_disk))).2)).*1
      = Some (ReqPopular 1 n') ∧ n < n'.
Proof.
  intros w. split; [by vm_compute|].
  apply (listing_page_sizes sample_runtime w 5 5 100
           (TraktService.__init__ empty_disk)); lia.
Defined.

(** ** More on the store *)

Section StoreMore.

Context (rt : Runtime).

Lemma write_movies_entries stamps new : ∀ k index files,
  (FileHandler.write_movies rt stamps k new index files).1
  = index ++ imap (λ i, entry_of rt (stamps (k + i)%nat)) new.
Proof.
  induction new as [|m new IH]; intros k index files; simpl.
  - by rewrite app_nil_r.
  - rewrite IH, <- app_assoc. simpl. rewrite Nat.add_0_r. do 2 f_equal.
    apply imap_ext. intros i x _. simpl. f_equal. f_equal. lia.
Qed.

Lemma write_movies_files stamps new : ∀ k index files,
  (FileHandler.write_movies rt stamps k new index files).2
  = foldl (λ fs m, <[get_filename rt m := m]> fs) files new.
Proof.
  induction new as [|m new IH]; intros k index files; simpl; [done|].
  by rewrite IH.
Qed.

Lemma save_movies_files stamps ms current_page d :
  movie_files (FileHandler.save_movies rt stamps ms current_page d)
  = foldl (λ fs m, <[get_filename rt m := m]> fs) (movie_files d) (new_movies d ms).
Proof.
  destruct (decide (new_movies d ms = [])) as [E|E].
  - by rewrite save_movies_noop, E.
  - rewrite save_movies_new by done. simpl. apply write_movies_files.
Qed.

Lemma save_movies_entries stamps ms current_page d :
  idx_movies (FileHandler._load_index
                (FileHandler.save_movies rt stamps ms current_page d))
  = idx_movies (FileHandler._load_index d)
    ++ imap (λ k, entry_of rt (stamps k)) (new_movies d ms).
Proof.
  destruct (decide (new_movies d ms = [])) as [E|E].
  - rewrite save_movies_noop, E by done. by rewrite app_nil_r.
  - rewrite save_movies_new by done. simpl. by rewrite write_movies_entries.
Qed.

(** Writing movies that are not indexed leaves the files there are. *)
Lemma foldl_insert_keeps (old : gmap pystr Movie) (ids0 : list Z) new :
  (∀ f m, old !! f = Some m → f = get_filename rt m ∧ trakt (ids m) ∈ ids0) →
  (∀ m, m ∈ new → trakt (ids m) ∉ ids0) →
  ∀ files : gmap pystr Movie,
    (∀ f m, old !! f = Some m → files !! f = Some m) →
    ∀ f m, old !! f = Some m →
      foldl (λ fs m, <[get_filename rt m := m]> fs) files new !! f = Some m.
Proof.
  intros Hnamed. induction new as [|m0 new IH]; intros Hnew files Hkeep f m Hf;
    simpl; [by apply Hkeep|].
  apply IH; [intros m' Hm'; apply Hnew; by right| |done].
  intros f' m' Hf'. destruct (Hnamed f' m' Hf') as [Hname Hin].
  rewrite lookup_insert_ne; [by apply Hkeep|].
  intros Heq. rewrite Hname in Heq. apply get_filename_trakt in Heq.
  apply (Hnew m0); [by left|]. by rewrite Heq.
Qed.

Lemma foldl_insert_named (ids1 : list Z) new :
  (∀ m, m ∈ new → trakt (ids m) ∈ ids1) →
  ∀ files : gmap pystr Movie,
    (∀ f m, files !! f = Some m → f = get_filename rt m ∧ trakt (ids m) ∈ ids1) →
    ∀ f m,
      foldl (λ fs m, <[get_filename rt m := m]> fs) files new !! f = Some m →
      f = get_filename rt m ∧ trakt (ids m) ∈ ids1.
Proof.
  induction new as [|m0 new IH]; intros Hnew files Hfiles f m; simpl;
    [by apply Hfiles|].
  apply IH; [intros m' Hm'; apply Hnew; by right|].
  intros f' m' Hf'. destruct (decide (get_filename rt m0 = f')) as [<- |Hne].
  - rewrite lookup_insert_eq in Hf'. injection Hf' as <-.
    split; [done|]. apply Hnew. by left.
  - rewrite lookup_insert_ne in Hf' by done. by apply Hfiles.
Qed.

Lemma foldl_insert_written new : ∀ (files : gmap pystr Movie) m,
  m ∈ new →
  ∃ m', foldl (λ fs m, <[get_filename rt m := m]> fs) files new
          !! get_filename rt m = Some m'
        ∧ get_filename rt m' = get_filename rt m.
Proof.
  induction new as [|m0 new IH] using rev_ind; intros files m Hm.
  { by apply elem_of_nil in Hm. }
  rewrite foldl_app. simpl.
  destruct (decide (get_filename rt m0 = get_filename rt m)) as [Heq|Hne].
  - exists m0. by rewrite <- Heq, lookup_insert_eq.
  - rewrite lookup_insert_ne by done. apply IH.
    apply elem_of_app in Hm as [Hm|Hm%list_elem_of_singleton]; [done|].
    by subst m0.
Qed.

Lemma foldl_insert_size new : ∀ files : gmap pystr Movie,
  (size files
   ≤ size (foldl (λ fs m, <[get_filename rt m := m]> fs) files new)
   ≤ size files + length new)%nat.
Proof.
  induction new as [|m0 new IH]; intros files; simpl; [lia|].
  specialize (IH (<[get_filename rt m0 := m0]> files)).
  destruct (files !! get_filename rt m0) as [m'|] eqn:E.
  - rewrite map_size_insert_Some in IH by eauto. lia.
  - rewrite map_size_insert_None in IH by done. lia.
Qed.

Lemma new_movies_filter d ms :
  new_movies d ms = filter (λ m, trakt (ids m) ∉ index_ids d) ms.
Proof.
  unfold new_movies. apply list_filter_iff. intros m.
  by rewrite elem_of_list_to_set.
Qed.

Lemma save_movies_fetched_ids stamps ms current_page d :
  new_movies d ms ≠ [] →
  FileHandler.get_fetched_ids (FileHandler.save_movies rt stamps ms current_page d)
  = list_to_set (index_ids d) ∪ list_to_set (movie_ids ms).
Proof.
  intros E.
  rewrite save_movies_new by done. unfold FileHandler.get_fetched_ids. simpl.
  rewrite write_movies_app. fold (index_ids d).
  apply set_eq. intros x.
  rewrite elem_of_union, !elem_of_list_to_set, elem_of_app. split.
  - intros [?|[_ ?]%new_movies_fresh]; auto.
  - intros [?|Hx]; [by left|].
    destruct (decide (x ∈ index_ids d)); [by left|]. right.
    apply list_elem_of_fmap in Hx as (m & -> & Hm).
    apply list_elem_of_fmap. exists m. split; [done|].
    apply list_elem_of_filter. split; [|done]. by rewrite elem_of_list_to_set.
Qed.

Lemma new_movies_length d ms : (length (new_movies d ms) ≤ length ms)%nat.
Proof. apply length_filter. Qed.

Lemma get_saved_count_save_le stamps ms current_page d :
  FileHandler.get_saved_count d
  ≤ FileHandler.get_saved_count (FileHandler.save_movies rt stamps ms current_page d)
  ≤ FileHandler.get_saved_count d + Z.of_nat (length ms).
Proof.
  unfold FileHandler.get_saved_count. rewrite save_movies_files.
  pose proof (foldl_insert_size (new_movies d ms) (movie_files d)).
  pose proof (new_movies_length d ms). lia.
Qed.

(** In a store whose index and files agree there are as many files as index
    entries. *)
Lemma indexed_size (index : list IndexEntry) (files : gmap pystr Movie) :
  indexed rt index files → size files = length index.
Proof.
  intros (Hnd & Hfiles & Hidx).
  assert (NoDup (e_filename <$> index)) as Hnames.
  { apply NoDup_fmap_2_strong; [|by apply NoDup_fmap_1 in Hnd].
    intros e1 e2 He1 He2 Heq.
    destruct (Hidx e1 He1) as (m1 & Hm1 & Hid1).
    destruct (Hidx e2 He2) as (m2 & Hm2 & Hid2).
    rewrite Heq in Hm1. assert (m1 = m2) as -> by congruence.
    apply list_elem_of_lookup in He1 as [i Hi], He2 as [j Hj].
    assert (i = j) as ->; [|congruence].
    eapply NoDup_lookup; [exact Hnd| |];
      rewrite list_lookup_fmap; [by rewrite Hi|rewrite Hj; simpl; congruence]. }
  rewrite <- size_dom, <- (length_fmap e_filename).
  rewrite <- (size_list_to_set (C:=gset pystr)) by done. f_equal.
  apply set_eq. intros f. rewrite elem_of_dom, elem_of_list_to_set. split.
  - intros [m Hm]. destruct (Hfiles f m Hm) as (_ & e & He & _ & <-).
    apply list_elem_of_fmap. eauto.
  - intros (e & -> & He)%list_elem_of_fmap.
    destruct (Hidx e He) as (m & Hm & _). eauto.
Qed.

Lemma consistent_named d : consistent rt d → named rt d.
Proof.
  intros (_ & Hfiles & _) f m Hf.
  destruct (Hfiles f m Hf) as (Hname & e & He & Hid & _). split; [done|].
  rewrite <- Hid. apply list_elem_of_fmap. eauto.
Qed.

End StoreMore.

(** ** Further properties of the store *)

(** X1: [save_movies] only appends to the index: the entries there were stay
    in place, and one entry is added for each movie of the batch that was not
    indexed, in the order of the batch, with its own timestamp. *)
Theorem save_movies_append_only (rt : Runtime) (stamps : nat → pystr)
    (ms : list Movie) (current_page : Z) (d : Disk) :
  idx_movies (FileHandler._load_index
                (FileHandler.save_movies rt stamps ms current_page d))
  = idx_movies (FileHandler._load_index d)
    ++ imap (λ k, entry_of rt (stamps k))
         (filter (λ m, trakt (ids m) ∉ index_ids d) ms).
Proof. by rewrite save_movies_entries, new_movies_filter. Qed.

(** X2: in a store where every file is named after its record and indexed,
    [save_movies] removes no file and changes the content of none, whatever
    the batch: the files it writes are those of movies that were not
    indexed, and their names differ from every name there was. *)
Theorem save_movies_keeps_files (rt : Runtime) (stamps : nat → pystr)
    (ms : list Movie) (current_page : Z) (d : Disk) :
  named rt d →
  ∀ f m, movie_files d !! f = Some m →
    movie_files (FileHandler.save_movies rt stamps ms current_page d) !! f
    = Some m.
Proof.
  intros Hnamed f m Hf. rewrite save_movies_files.
  eapply (foldl_insert_keeps rt (movie_files d) (index_ids d)); try done.
  intros m' Hm'. eapply new_movies_fresh, list_elem_of_fmap. eauto.
Qed.

(** The file of the movie 42 is still there, with its content, after a
    batch that lists 42 again under another title. *)
Lemma save_movies_keeps_files_witness :
  let d' := FileHandler.save_movies sample_runtime sample_stamps
              [sample_movie "Z" 42; sample_movie "B" 7; sample_movie "B" 7] 5
              disk_at_page_3 in
  movie_files d' !! lit "A_42.json" = Some (sample_movie "A" 42).
Proof.
  intros d'.
  apply (save_movies_keeps_files sample_runtime sample_stamps
           [sample_movie "Z" 42; sample_movie "B" 7; sample_movie "B" 7] 5
           disk_at_page_3); [|reflexivity].
  apply consistent_named. unfold disk_at_page_3.
  apply save_movies_consistent; [apply consistent_empty_disk|compute_done].
Defined.

(** X3: after a call of [save_movies] that saves at least one movie,
    [get_fetched_ids] is the set of the identifiers of the index entries
    together with those of the batch, whatever [fetched_ids] held in the
    index file before: the list is written anew from the entries. *)
Theorem get_fetched_ids_save (rt : Runtime) (stamps : nat → pystr)
    (ms : list Movie) (current_page : Z) (d : Disk) :
  (∃ m, m ∈ ms ∧ trakt (ids m) ∉ index_ids d) →
  FileHandler.get_fetched_ids (FileHandler.save_movies rt stamps ms current_page d)
  = list_to_set (index_ids d) ∪ list_to_set (movie_ids ms).
Proof.
  intros (m0 & Hm0 & Hnew0). apply save_movies_fetched_ids.
  intros E. apply Hnew0. by eapply new_movies_nil.
Qed.

(** An index file whose [fetched_ids] lost track of the entry 42. *)
Lemma get_fetched_ids_save_witness :
  let d := {| index_file := Some
                {| idx_movies := [entry_of sample_runtime (lit "t")
                                    (sample_movie "A" 42)];
                   last_updated := None; last_page := Some 1;
                   fetched_ids := Some [] |};
              movie_files := ∅ |} in
  FileHandler.get_fetched_ids d = ∅ ∧
  FileHandler.get_fetched_ids
    (FileHandler.save_movies sample_runtime sample_stamps [sample_movie "B" 7] 2 d)
  = list_to_set (index_ids d) ∪ list_to_set (movie_ids [sample_movie "B" 7]).
Proof.
  intros d. split; [reflexivity|].
  apply (get_fetched_ids_save sample_runtime sample_stamps [sample_movie "B" 7] 2 d).
  exists (sample_movie "B" 7). split; [set_solver|]. compute_done.
Defined.



(** X5: in a store whose index and files agree, [get_saved_count] is the
    number of index entries, and a batch that lists no identifier twice
    raises it by the number of its movies that were not indexed. *)
Theorem get_saved_count_save (rt : Runtime) (stamps : nat → pystr)
    (ms : list Movie) (current_page : Z) (d : Disk) :
  consistent rt d → NoDup (movie_ids ms) →
  FileHandler.get_saved_count d
  = Z.of_nat (length (idx_movies (FileHandler._load_index d)))
  ∧ FileHandler.get_saved_count
      (FileHandler.save_movies rt stamps ms current_page d)
    = FileHandler.get_saved_count d
      + Z.of_nat (length (filter (λ m, trakt (ids m) ∉ index_ids d) ms)).
Proof.
  intros Hd Hnd.
  pose proof (save_movies_consistent rt stamps ms current_page d Hd Hnd) as Hd'.
  unfold FileHandler.get_saved_count.
  rewrite (indexed_size rt _ _ Hd), (indexed_size rt _ _ Hd').
  split; [done|].
  rewrite save_movies_entries, new_movies_filter, length_app, length_imap. lia.
Qed.

Lemma get_saved_count_save_witness :
  FileHandler.get_saved_count
    (FileHandler.save_movies sample_runtime sample_stamps
       [sample_movie "B" 7; sample_movie "A" 42; sample_movie "C" 9] 5
       disk_at_page_3) = 3.
Proof.
  destruct (get_saved_count_save sample_runtime sample_stamps
              [sample_movie "B" 7; sample_movie "A" 42; sample_movie "C" 9] 5
              disk_at_page_3) as [H1 H2].
  - unfold disk_at_page_3.
    apply save_movies_consistent; [apply consistent_empty_disk|compute_done].
  - compute_done.
  - rewrite H2, H1. reflexivity.
Defined.

(** ** Invariants of the state of a run *)

Section Invariants.

Context (rt : Runtime) (w : World) (I : St → Prop).
Context (Hlimiter : preserves I (TraktService._respect_rate_limit w)).
Context (Hget : ∀ req, preserves I (requests_get w req)).
Context (Hyield : ∀ batch pg, preserves I (emit (EYield batch pg))).

Lemma keeps_bind {A B} (m : M A) (f : A → M B) :
  preserves I m → (∀ a, preserves I (f a)) → preserves I (mbind m f).
Proof.
  intros Hm Hf s Hs. unfold mbind. specialize (Hm s Hs).
  destruct (m s) as [[a|e] s1]; [by apply Hf|done].
Qed.

Lemma keeps_mret {A} (a : A) : preserves I (mret a).
Proof. by intros s. Qed.

Lemma keeps_raise {A} (e : exn) : preserves I (@raise A e).
Proof. by intros s. Qed.

Lemma keeps_decoded response :
  preserves I (mbind (raise_for_status response) (λ _, response_json response)).
Proof.
  apply keeps_bind.
  - unfold raise_for_status. destruct (_ && _); [apply keeps_raise|apply keeps_mret].
  - intros _. unfold response_json.
    destruct (json response); [apply keeps_mret|apply keeps_raise].
Qed.

Lemma keeps_limited_get req : preserves I (limited_get w req).
Proof.
  unfold limited_get.
  apply keeps_bind; [apply Hlimiter|intros _].
  apply keeps_bind; [apply Hget|intros response]. apply keeps_decoded.
Qed.

Lemma keeps_keywords tmdb_id :
  preserves I (TMDBService.get_movie_keywords w tmdb_id).
Proof.
  unfold TMDBService.get_movie_keywords.
  destruct (tmdb_id =? 0); [apply keeps_mret|].
  apply keeps_bind; [apply Hget|intros response].
  destruct (status_code response =? 404); [apply keeps_mret|].
  apply keeps_bind.
  { unfold raise_for_status. destruct (_ && _); [apply keeps_raise|apply keeps_mret]. }
  intros _. apply keeps_bind.
  { unfold response_json. destruct (json response);
      [apply keeps_mret|apply keeps_raise]. }
  intros body. destruct body; apply keeps_mret || apply keeps_raise.
Qed.

Lemma keeps_fetch_movie movie_data :
  preserves I (TraktService.fetch_movie rt w movie_data).
Proof.
  unfold TraktService.fetch_movie.
  apply keeps_bind; [apply (keeps_limited_get (ReqDetails _))|].
  intros [| movie | | | |]; try apply keeps_raise.
  apply keeps_bind; [apply (keeps_limited_get (ReqStats _))|].
  intros stats_data.
  apply keeps_bind; [apply (keeps_limited_get (ReqRatings _))|].
  intros ratings_data.
  apply keeps_bind.
  - destruct (tmdb (d_ids movie)) as [tmdb_id|]; [|apply keeps_mret].
    destruct (tmdb_id =? 0); [apply keeps_mret|apply keeps_keywords].
  - intros kws s Hs. by rewrite make_movie_state.
Qed.

Lemma keeps_for_page_movies limit page_movies :
  ∀ g, preserves I (TraktService.for_page_movies rt w limit page_movies g).
Proof.
  induction page_movies as [|movie_data rest IH]; intros g;
    cbn [TraktService.for_page_movies]; [apply keeps_mret|].
  destruct (total_processed g >=? limit); [apply keeps_mret|].
  apply keeps_bind; [by intros s|intros me].
  destruct (bool_decide _); [apply IH|].
  apply keeps_bind; [apply keeps_fetch_movie|intros movie_obj].
  destruct (_ <=? _)%nat; [|apply IH].
  apply keeps_bind; [apply Hyield|intros _; apply IH].
Qed.

Lemma keeps_while_loop limit fuel :
  ∀ g, preserves I (TraktService.while_loop rt w fuel limit g).
Proof.
  induction fuel as [|fuel IH]; intros g; cbn [TraktService.while_loop];
    (destruct (total_processed g <? limit); [|apply keeps_mret]);
    [apply keeps_mret|].
  apply keeps_bind; [apply Hlimiter|intros _].
  apply keeps_bind; [apply Hget|intros response].
  apply keeps_bind.
  { unfold raise_for_status. destruct (_ && _); [apply keeps_raise|apply keeps_mret]. }
  intros _. apply keeps_bind.
  { unfold response_json. destruct (json response);
      [apply keeps_mret|apply keeps_raise]. }
  intros body. destruct body as [[|x page_movies]| | | | |[]];
    try apply keeps_mret; try apply keeps_raise.
  apply keeps_bind; [apply keeps_for_page_movies|intros g'; apply IH].
Qed.

Lemma keeps_get_top_movies fuel limit :
  preserves I (TraktService.get_top_movies rt w fuel limit).
Proof.
  unfold TraktService.get_top_movies.
  apply keeps_bind; [by intros s|intros me].
  apply keeps_bind; [apply keeps_while_loop|intros [g stop]].
  destruct stop; try apply keeps_mret;
    (apply keeps_bind; [|intros _; apply keeps_mret]);
    destruct (movies g); apply keeps_mret || apply Hyield.
Qed.

End Invariants.

Section Calm.

Context (w : World) (Hw : world_ok w).

Lemma calm_limiter : preserves calm (TraktService._respect_rate_limit w).
Proof.
  destruct Hw as [He Ho]. intros s [Hlast Hlog].
  unfold calm, TraktService._respect_rate_limit, mbind, time_time, get_self,
    time_sleep, set_last_request_time, emit, mret; simpl.
  pose proof (He (reads s)) as H1. pose proof (He (S (reads s))) as H2.
  pose proof (Ho (naps s)) as H3.
  destruct (Qlt_le_dec _ _) as [Hlt|Hge]; simpl.
  - split; [|constructor; [done|]; constructor; [|done]]; simpl;
      remember REQUEST_DELAY as D; clear HeqD; lra.
  - split; [lra|by constructor].
Qed.

Lemma calm_requests_get req : preserves calm (requests_get w req).
Proof. intros s [Hlast Hlog]. split; [done|]. by constructor. Qed.

Lemma calm_yield batch pg : preserves calm (emit (EYield batch pg)).
Proof. intros s [Hlast Hlog]. split; [done|]. by constructor. Qed.

End Calm.

Section Fields.

Context (w : World) (fetched : gset Z) (first_page : Z).

Lemma fields_limiter : preserves (same_fields fetched first_page) (TraktService._respect_rate_limit w).
Proof.
  intros s Hs.
  unfold TraktService._respect_rate_limit, mbind, time_time, get_self. simpl.
  by destruct (Qlt_le_dec _ _).
Qed.

Lemma fields_requests_get req : preserves (same_fields fetched first_page) (requests_get w req).
Proof. by intros s Hs. Qed.

Lemma fields_yield batch pg : preserves (same_fields fetched first_page) (emit (EYield batch pg)).
Proof. by intros s Hs. Qed.

End Fields.

(** ** More on runs of [get_top_movies] *)

Section Counting.

Lemma requests_cons_get req resp l : requests (EGet req resp :: l) = requests l ++ [req].
Proof.
  change (EGet req resp :: l) with ([EGet req resp] ++ l).
  by rewrite requests_app.
Qed.

Lemma throttled_requests req resp b : throttled req resp b → requests b = [req].
Proof.
  intros T. unfold requests. by rewrite (throttled_exchanges _ _ _ T).
Qed.

Lemma throttled_stamps req resp b :
  throttled req resp b → length (limiter_stamps b) = 1%nat.
Proof. by intros [t pre [-> |[secs ->]]]. Qed.

Lemma count_requests_app P a b :
  count_requests P (a ++ b) = (count_requests P b + count_requests P a)%nat.
Proof.
  unfold count_requests. by rewrite requests_app, filter_app, length_app.
Qed.

Lemma listing_pages_app a b :
  listing_pages (a ++ b) = listing_pages b ++ listing_pages a.
Proof. unfold listing_pages. by rewrite requests_app, omap_app. Qed.

Lemma count_requests_yield P batch pg l :
  count_requests P (EYield batch pg :: l) = count_requests P l.
Proof.
  change (EYield batch pg :: l) with ([EYield batch pg] ++ l).
  rewrite count_requests_app. unfold count_requests at 2. simpl. lia.
Qed.

Lemma stamps_yield batch pg l :
  limiter_stamps (EYield batch pg :: l) = limiter_stamps l.
Proof.
  change (EYield batch pg :: l) with ([EYield batch pg] ++ l).
  by rewrite limiter_stamps_app, app_nil_r.
Qed.

Lemma listing_pages_yield batch pg l :
  listing_pages (EYield batch pg :: l) = listing_pages l.
Proof.
  change (EYield batch pg :: l) with ([EYield batch pg] ++ l).
  by rewrite listing_pages_app, app_nil_r.
Qed.

(** The requests of one movie: details, stats, ratings and then keywords,
    as far as its lookups went, each of the first three behind the limiter. *)
Lemma item_log_requests movie_slug k evs :
  item_log movie_slug k evs →
  (1 ≤ k ≤ 4)%nat ∧
  ∃ kw,
    requests evs
    = [ReqDetails movie_slug]
      ++ (if (2 <=? k)%nat then [ReqStats movie_slug] else [])
      ++ (if (3 <=? k)%nat then [ReqRatings movie_slug] else [])
      ++ kw
    ∧ (if (4 <=? k)%nat then ∃ tmdb_id, kw = [ReqKeywords tmdb_id] else kw = [])
    ∧ length (limiter_stamps evs) = Nat.min k 3.
Proof.
  induction 1 as [resp b T|l resp b H (_ & kw & IH & Hkw & Hs) T
                 |l resp b H (_ & kw & IH & Hkw & Hs) T
                 |l tmdb_id resp H (_ & kw & IH & Hkw & Hs)]; (split; [lia|]).
  - exists []. rewrite (throttled_requests _ _ _ T), (throttled_stamps _ _ _ T).
    done.
  - exists []. simpl in *. subst kw.
    rewrite requests_app, limiter_stamps_app, length_app, IH, Hs.
    by rewrite (throttled_requests _ _ _ T), (throttled_stamps _ _ _ T).
  - exists []. simpl in *. subst kw.
    rewrite requests_app, limiter_stamps_app, length_app, IH, Hs.
    by rewrite (throttled_requests _ _ _ T), (throttled_stamps _ _ _ T).
  - exists [ReqKeywords tmdb_id]. simpl in *. subst kw.
    rewrite requests_cons_get, IH. split; [done|]. split; [eauto|].
    change (EGet (ReqKeywords tmdb_id) resp :: l)
      with ([EGet (ReqKeywords tmdb_id) resp] ++ l).
    by rewrite limiter_stamps_app, app_nil_r.
Qed.

Lemma item_log_counts movie_slug k evs :
  item_log movie_slug k evs →
  (1 ≤ k ≤ 4)%nat
  ∧ count_requests is_listing evs = 0%nat
  ∧ count_requests is_details_request evs = 1%nat
  ∧ count_requests is_stats evs = (if (2 <=? k)%nat then 1 else 0)%nat
  ∧ count_requests is_ratings evs = (if (3 <=? k)%nat then 1 else 0)%nat
  ∧ count_requests is_keywords evs = (if (4 <=? k)%nat then 1 else 0)%nat
  ∧ length (limiter_stamps evs) = Nat.min k 3
  ∧ listing_pages evs = [].
Proof.
  intros (Hk & kw & Hreq & Hkw & Hs)%item_log_requests.
  unfold count_requests, listing_pages. rewrite Hreq.
  destruct k as [|[|[|[|[|k]]]]]; try lia; simpl in Hkw |- *.
  1-3: subst kw.
  4: destruct Hkw as [tmdb_id ->].
  all: rewrite Hs; done.
Qed.

Lemma throttled_counts P req resp b :
  throttled req resp b →
  count_requests P b = (if P req then 1 else 0)%nat.
Proof.
  intros T. unfold count_requests. rewrite (throttled_requests _ _ _ T).
  rewrite filter_cons, filter_nil. by destruct (P req).
Qed.

Lemma throttled_listing_pages req resp b :
  throttled req resp b →
  listing_pages b = match req with ReqPopular pg _ => [pg] | _ => [] end.
Proof.
  intros T. unfold listing_pages. rewrite (throttled_requests _ _ _ T).
  by destruct req.
Qed.

Lemma listing_pages_length l :
  length (listing_pages l) = count_requests is_listing l.
Proof.
  unfold listing_pages, count_requests.
  induction (requests l) as [|req rs IH]; [done|].
  rewrite filter_cons. destruct req; simpl; (f_equal || idtac); exact IH.
Qed.

End Counting.

Section Budget.

Context (w : World) (limit start : Z).

(** The requests made so far: one listing per page, and for every movie
    counted in [total_processed] its three Trakt lookups and at most one
    keyword lookup. *)
Lemma reach_budget ph n g l :
  reach w limit start ph n g l →
  Z.of_nat (count_requests is_details_request l) = total_processed g
  ∧ count_requests is_stats l = count_requests is_details_request l
  ∧ count_requests is_ratings l = count_requests is_details_request l
  ∧ (count_requests is_keywords l ≤ count_requests is_details_request l)%nat
  ∧ length (limiter_stamps l)
    = (count_requests is_listing l + 3 * count_requests is_details_request l)%nat
  ∧ listing_pages l = (λ j, start + Z.of_nat j) <$> seq 0 (n + phase_pages ph)
  ∧ Forall (λ y, start ≤ y.2 < start + Z.of_nat (n + phase_pages ph)) (yields l).
Proof.
  induction 1 as [|n g l i resp b x pm Hr (IHd & IHs & IHr & IHk & IHt & IHp & IHy)
                     Hlt _ T _
                  |n g l ms k evs mo Hr (IHd & IHs & IHr & IHk & IHt & IHp & IHy)
                     Hlt Hi Hk _ Hlen
                  |n g l ms k evs mo Hr (IHd & IHs & IHr & IHk & IHt & IHp & IHy)
                     Hlt Hi Hk _ Hlen
                  |n g l Hr (IHd & IHs & IHr & IHk & IHt & IHp & IHy)].
  - repeat split; simpl; constructor.
  - apply reach_pages in Hr as (Hpg & _).
    rewrite !count_requests_app, !(throttled_counts _ _ _ _ T).
    rewrite limiter_stamps_app, length_app, (throttled_stamps _ _ _ T).
    rewrite listing_pages_app, (throttled_listing_pages _ _ _ T).
    rewrite yields_app, (throttled_yields _ _ _ T), app_nil_r.
    unfold listing_request. simpl in *. rewrite Nat.add_0_r in *.
    repeat split; try lia.
    + rewrite IHp, Nat.add_1_r, seq_S, fmap_app. simpl. by rewrite Hpg.
    + eapply Forall_impl; [exact IHy|]. simpl. lia.
  - destruct (item_log_counts _ _ _ Hi)
      as (_ & Hcl & Hcd & Hcs & Hcr & Hck & Hct & Hcp).
    rewrite !count_requests_app, limiter_stamps_app, length_app.
    rewrite listing_pages_app, Hcl, Hcd, Hcs, Hcr, Hck, Hct, Hcp, app_nil_r.
    rewrite yields_app, (item_log_yields _ _ _ Hi), app_nil_r.
    destruct k as [|[|[|[|k]]]]; try lia; simpl in *;
      (repeat split; try done; lia).
  - destruct (item_log_counts _ _ _ Hi)
      as (_ & Hcl & Hcd & Hcs & Hcr & Hck & Hct & Hcp).
    apply reach_pages in Hr as (Hpg & _).
    rewrite !count_requests_yield, stamps_yield, listing_pages_yield.
    change (EYield (movies g ++ [mo]) (page g) :: evs ++ l)
      with ([EYield (movies g ++ [mo]) (page g)] ++ evs ++ l).
    rewrite !count_requests_app, limiter_stamps_app, length_app.
    rewrite listing_pages_app, Hcl, Hcd, Hcs, Hcr, Hck, Hct, Hcp, app_nil_r.
    rewrite yields_app, yields_app, (item_log_yields _ _ _ Hi), app_nil_r.
    assert (Forall (λ y : list Movie * Z,
                      start ≤ y.2 < start + Z.of_nat (n + phase_pages InFor))
              (yields l ++ yields [EYield (movies g ++ [mo]) (page g)])).
    { apply Forall_app. split; [done|]. repeat constructor; simpl; lia. }
    destruct k as [|[|[|[|k]]]]; try lia; simpl in *;
      (repeat split; try done; lia).
  - cbn [phase_pages total_processed] in *.
    replace (S n + 0)%nat with (n + 1)%nat by lia. done.
Qed.

(** The same when the loop is left, however it is left. *)
Lemma loop_exit_budget fuel x l :
  loop_exit w limit start fuel x l →
  let c P := count_requests P (final_log x l) in
  (c is_stats ≤ c is_details_request)%nat
  ∧ (c is_ratings ≤ c is_stats)%nat
  ∧ (c is_keywords ≤ c is_ratings)%nat
  ∧ Z.of_nat (c is_details_request) ≤ Z.max 0 limit
  ∧ length (limiter_stamps (final_log x l))
    = (c is_listing + c is_details_request + c is_stats + c is_ratings)%nat
  ∧ (∀ stop, final_result x = Ok stop →
       c is_stats = c is_details_request ∧
       c is_ratings = c is_details_request).
Proof.
  assert (∀ g l0,
    count_requests is_stats (last_yield g ++ l0) = count_requests is_stats l0
    ∧ count_requests is_ratings (last_yield g ++ l0)
      = count_requests is_ratings l0
    ∧ count_requests is_keywords (last_yield g ++ l0)
      = count_requests is_keywords l0
    ∧ count_requests is_details_request (last_yield g ++ l0)
      = count_requests is_details_request l0
    ∧ count_requests is_listing (last_yield g ++ l0)
      = count_requests is_listing l0
    ∧ limiter_stamps (last_yield g ++ l0) = limiter_stamps l0) as Hlast.
  { intros g l0. unfold last_yield. destruct (movies g); [done|]. simpl.
    by rewrite !count_requests_yield, stamps_yield. }
  destruct 1 as [n g l Hr Hge|n g l resp b Hr Hlt T He|g l Hr Hlt
                |e n g l resp b Hr Hlt T|e n g l ms k evs Hr Hlt Hi]; simpl.
  - destruct (Hlast g l) as (-> & -> & -> & -> & -> & ->).
    pose proof (reach_batches _ _ _ _ _ _ _ Hr) as (_ & _ & _ & Ht).
    apply reach_budget in Hr as (IHd & IHs & IHr & IHk & IHt & _).
    repeat split; try lia. 
  - destruct (Hlast g (b ++ l)) as (-> & -> & -> & -> & -> & ->).
    pose proof (reach_batches _ _ _ _ _ _ _ Hr) as (_ & _ & _ & Ht).
    apply reach_budget in Hr as (IHd & IHs & IHr & IHk & IHt & _).
    rewrite !count_requests_app, !(throttled_counts _ _ _ _ T).
    rewrite limiter_stamps_app, length_app, (throttled_stamps _ _ _ T).
    unfold listing_request. simpl. repeat split; try lia.
  - pose proof (reach_batches _ _ _ _ _ _ _ Hr) as (_ & _ & _ & Ht).
    apply reach_budget in Hr as (IHd & IHs & IHr & IHk & IHt & _).
    repeat split; try lia.
  - pose proof (reach_batches _ _ _ _ _ _ _ Hr) as (_ & _ & _ & Ht).
    apply reach_budget in Hr as (IHd & IHs & IHr & IHk & IHt & _).
    rewrite !count_requests_app, !(throttled_counts _ _ _ _ T).
    rewrite limiter_stamps_app, length_app, (throttled_stamps _ _ _ T).
    unfold listing_request. simpl. repeat split; try lia.
  - pose proof (reach_batches _ _ _ _ _ _ _ Hr) as (_ & _ & _ & Ht).
    apply reach_budget in Hr as (IHd & IHs & IHr & IHk & IHt & _).
    destruct (item_log_counts _ _ _ Hi)
      as (Hk & Hcl & Hcd & Hcs & Hcr & Hck & Hct & Hcp).
    rewrite !count_requests_app, limiter_stamps_app, length_app.
    rewrite Hcl, Hcd, Hcs, Hcr, Hck, Hct.
    destruct k as [|[|[|[|[|k]]]]]; try lia; simpl;
      (repeat split; try done; lia).
Qed.

Lemma reach_full_batches ph n g l batch pg :
  reach w limit start ph n g l →
  (batch, pg) ∈ yields l →
  length batch = BATCH_SIZE
  ∧ start ≤ pg < start + Z.of_nat (n + phase_pages ph).
Proof.
  intros Hr Hin.
  pose proof (reach_batches _ _ _ _ _ _ _ Hr) as (Hb & _).
  pose proof (reach_budget _ _ _ _ Hr) as (_ & _ & _ & _ & _ & _ & Hy).
  unfold batch_sizes in Hb. rewrite Forall_fmap in Hb.
  pose proof (proj1 (Forall_forall _ _) Hb _ Hin) as H1.
  pose proof (proj1 (Forall_forall _ _) Hy _ Hin) as H2.
  done.
Qed.

Lemma listing_pages_last_yield g l :
  listing_pages (last_yield g ++ l) = listing_pages l.
Proof.
  unfold last_yield. destruct (movies g); [done|].
  by rewrite listing_pages_app, app_nil_r.
Qed.

(** The pages asked for are consecutive from [start]; a full batch carries
    one of them, the batch left over at the end the page the loop stopped
    at. *)
Lemma loop_exit_listing fuel x l :
  loop_exit w limit start fuel x l →
  let pages := listing_pages (final_log x l) in
  pages = (λ j, start + Z.of_nat j) <$> seq 0 (length pages)
  ∧ ∀ batch pg, (batch, pg) ∈ yields (final_log x l) →
      (length batch = BATCH_SIZE ∧ start ≤ pg < start + Z.of_nat (length pages))
      ∨ ((0 < length batch < BATCH_SIZE)%nat
         ∧ last (yields (final_log x l)) = Some (batch, pg)
         ∧ ((final_result x = Ok LimitReached
             ∧ pg = start + Z.of_nat (length pages))
            ∨ (final_result x = Ok EmptyPage
               ∧ pg = start + Z.of_nat (length pages) - 1))).
Proof.
  assert (∀ n ph g l0, reach w limit start ph n g l0 →
            length (listing_pages l0) = (n + phase_pages ph)%nat) as Hlen.
  { intros n ph g l0 (_ & _ & _ & _ & _ & -> & _)%reach_budget.
    by rewrite length_fmap, length_seq. }
  destruct 1 as [n g l Hr Hge|n g l resp b Hr Hlt T He|g l Hr Hlt
                |e n g l resp b Hr Hlt T|e n g l ms k evs Hr Hlt Hi]; simpl.
  - rewrite listing_pages_last_yield, (Hlen _ _ _ _ Hr).
    pose proof (reach_budget _ _ _ _ Hr) as (_ & _ & _ & _ & _ & Hp & _).
    split; [done|]. intros batch pg. rewrite yields_last_yield.
    intros [Hin|Hin]%elem_of_app.
    + left. by eapply reach_full_batches.
    + right. pose proof (reach_batches _ _ _ _ _ _ _ Hr) as (_ & Hm & _).
      pose proof (reach_pages _ _ _ _ _ _ _ Hr) as (Hpg & _).
      destruct (movies g) as [|m ms] eqn:Em; [by apply elem_of_nil in Hin|].
      apply list_elem_of_singleton in Hin. injection Hin as -> ->.
      split; [simpl in *; lia|]. split; [by rewrite last_snoc|].
      left. split; [done|]. simpl. lia.
  - assert (listing_pages (last_yield g ++ b ++ l)
            = listing_pages l ++ [page g]) as ->.
    { rewrite listing_pages_last_yield, listing_pages_app.
      by rewrite (throttled_listing_pages _ _ _ T). }
    assert (yields (last_yield g ++ b ++ l) = yields (last_yield g ++ l)) as ->.
    { rewrite !yields_last_yield, yields_app, (throttled_yields _ _ _ T).
      by rewrite app_nil_r. }
    pose proof (reach_budget _ _ _ _ Hr) as (_ & _ & _ & _ & _ & Hp & _).
    pose proof (reach_pages _ _ _ _ _ _ _ Hr) as (Hpg & _).
    rewrite length_app, (Hlen _ _ _ _ Hr). simpl. rewrite Nat.add_0_r in *.
    split.
    { rewrite Hp, Nat.add_1_r, seq_S, fmap_app. simpl. by rewrite Hpg. }
    intros batch pg. rewrite yields_last_yield.
    intros [Hin|Hin]%elem_of_app.
    + left. destruct (reach_full_batches _ _ _ _ _ _ Hr Hin) as [H1 H2].
      split; [done|]. simpl in H2. lia.
    + right. pose proof (reach_batches _ _ _ _ _ _ _ Hr) as (_ & Hm & _).
      destruct (movies g) as [|m ms] eqn:Em; [by apply elem_of_nil in Hin|].
      apply list_elem_of_singleton in Hin. injection Hin as -> ->.
      split; [simpl in *; lia|]. split; [by rewrite last_snoc|].
      right. split; [done|]. lia.
  - rewrite (Hlen _ _ _ _ Hr).
    pose proof (reach_budget _ _ _ _ Hr) as (_ & _ & _ & _ & _ & Hp & _).
    split; [done|]. intros batch pg Hin. left. by eapply reach_full_batches.
  - rewrite listing_pages_app, (throttled_listing_pages _ _ _ T).
    rewrite yields_app, (throttled_yields _ _ _ T), app_nil_r.
    pose proof (reach_budget _ _ _ _ Hr) as (_ & _ & _ & _ & _ & Hp & _).
    pose proof (reach_pages _ _ _ _ _ _ _ Hr) as (Hpg & _).
    unfold listing_request.
    rewrite length_app, (Hlen _ _ _ _ Hr). simpl. rewrite Nat.add_0_r in *.
    split.
    { rewrite Hp, Nat.add_1_r, seq_S, fmap_app. simpl. by rewrite Hpg. }
    intros batch pg Hin. left.
    destruct (reach_full_batches _ _ _ _ _ _ Hr Hin) as [H1 H2].
    split; [done|]. simpl in H2. lia.
  - destruct (item_log_counts _ _ _ Hi) as (_ & _ & _ & _ & _ & _ & _ & Hcp).
    rewrite listing_pages_app, Hcp, app_nil_r.
    rewrite yields_app, (item_log_yields _ _ _ Hi), app_nil_r.
    rewrite (Hlen _ _ _ _ Hr).
    pose proof (reach_budget _ _ _ _ Hr) as (_ & _ & _ & _ & _ & Hp & _).
    split; [done|]. intros batch pg Hin. left. by eapply reach_full_batches.
Qed.

(** No more movies are yielded than the limit allows, however the run
    ends. *)
Lemma loop_exit_total fuel x l :
  loop_exit w limit start fuel x l →
  Z.of_nat (sum_list (batch_sizes (yields (final_log x l)))) ≤ Z.max 0 limit.
Proof.
  assert (∀ ph n g l0, reach w limit start ph n g l0 →
    Z.of_nat (sum_list (batch_sizes (yields l0))) ≤ Z.max 0 limit) as Hplain.
  { intros ph n g l0 (_ & _ & Hs & Ht)%reach_batches. lia. }
  assert (∀ ph n g l0, reach w limit start ph n g l0 →
    Z.of_nat (sum_list (batch_sizes (yields (last_yield g ++ l0))))
    ≤ Z.max 0 limit) as Hlast.
  { intros ph n g l0 Hr.
    pose proof (reach_batches _ _ _ _ _ _ _ Hr) as (_ & _ & _ & Ht).
    apply reach_final_sizes in Hr as (tail & _ & _ & ->). lia. }
  destruct 1 as [n g l Hr Hge|n g l resp b Hr Hlt T He|g l Hr Hlt
                |e n g l resp b Hr Hlt T|e n g l ms k evs Hr Hlt Hi]; simpl.
  - by eapply Hlast.
  - assert (yields (last_yield g ++ b ++ l) = yields (last_yield g ++ l)) as ->.
    { rewrite !yields_last_yield, yields_app, (throttled_yields _ _ _ T).
      by rewrite app_nil_r. }
    by eapply Hlast.
  - by eapply Hplain.
  - rewrite yields_app, (throttled_yields _ _ _ T), app_nil_r. by eapply Hplain.
  - rewrite yields_app, (item_log_yields _ _ _ Hi), app_nil_r. by eapply Hplain.
Qed.

End Budget.

(** ** Further properties of a run *)

(** X6: the listing requests of a run of [get_top_movies] ask for
    consecutive pages, the first of them [start_page]: no page is asked for
    twice and none is passed over. *)
Theorem listing_pages_consecutive (rt : Runtime) (w : World) (fuel : nat)
    (limit : Z) (svc : TraktService) :
  let out := TraktService.get_top_movies rt w fuel limit (init_state w svc) in
  let pages := listing_pages (log out.2) in
  pages = (λ j, start_page svc + Z.of_nat j) <$> seq 0 (length pages).
Proof.
  intros out pages. subst pages.
  destruct out as [r s'] eqn:E. subst out.
  apply get_top_movies_exit in E as (x & l & Hexit & -> & Hlog).
  simpl. rewrite Hlog.
  by destruct (loop_exit_listing w limit _ fuel x l Hexit) as [H _].
Qed.

(** X7: the page that comes with a batch. A batch of [BATCH_SIZE] movies is
    yielded with the page that was being read when it filled up. The smaller
    batch left at the end comes last and carries the page number reached
    when the loop stopped: one past the last page asked for when the limit
    was reached, the empty page itself when the listing ran out. *)
Theorem batch_pages (rt : Runtime) (w : World) (fuel : nat)
    (limit : Z) (svc : TraktService) (i : nat) (batch : list Movie) (pg : Z) :
  let out := TraktService.get_top_movies rt w fuel limit (init_state w svc) in
  let asked := Z.of_nat (length (listing_pages (log out.2))) in
  yields (log out.2) !! i = Some (batch, pg) →
  (length batch = BATCH_SIZE
   ∧ start_page svc ≤ pg < start_page svc + asked)
  ∨ ((0 < length batch < BATCH_SIZE)%nat
     ∧ last (yields (log out.2)) = Some (batch, pg)
     ∧ ((out.1 = Ok LimitReached ∧ pg = start_page svc + asked)
        ∨ (out.1 = Ok EmptyPage ∧ pg = start_page svc + asked - 1))).
Proof.
  intros out asked. subst asked.
  destruct out as [r s'] eqn:E. subst out.
  apply get_top_movies_exit in E as (x & l & Hexit & -> & Hlog).
  simpl. rewrite Hlog. intros Hi.
  destruct (loop_exit_listing w limit _ fuel x l Hexit) as [_ H].
  apply H. by eapply list_elem_of_lookup_2.
Qed.

(** Fifty-three movies: the batch of fifty fills up on page 3, and the three
    movies left over are yielded with page 4, the empty one. *)
Lemma batch_pages_witness :
  let w := catalog_world (sample_catalog 53 false) 1 not_found in
  let out := TraktService.get_top_movies sample_runtime w 60 100
               (init_state w (TraktService.__init__ empty_disk)) in
  (yields (log out.2)).*2 = [3; 4] ∧
  listing_pages (log out.2) = [1; 2; 3; 4] ∧
  ∃ batch pg,
    yields (log out.2) !! 1%nat = Some (batch, pg) ∧
    ((length batch = BATCH_SIZE ∧ 1 ≤ pg < 1 + 4)
     ∨ ((0 < length batch < BATCH_SIZE)%nat
        ∧ last (yields (log out.2)) = Some (batch, pg)
        ∧ ((out.1 = Ok LimitReached ∧ pg = 1 + 4)
           ∨ (out.1 = Ok EmptyPage ∧ pg = 1 + 4 - 1)))).
Proof.
  intros w out. split; [by vm_compute|]. split; [by vm_compute|].
  destruct (yields (log out.2) !! 1%nat) as [[batch pg]|] eqn:E;
    [|by vm_compute in E].
  exists batch, pg. split; [done|].
  exact (batch_pages sample_runtime w 60 100 (TraktService.__init__ empty_disk)
           1 batch pg E).
Defined.

(** X8: the requests of a run. Every movie costs one details, one stats and
    one ratings request, in that order, and at most one keyword request;
    the run makes no more detail lookups than [limit]; and the limiter is
    called once for every listing, details, stats and ratings request and
    for nothing else. When the run ends without an error no movie is left
    half fetched. *)
Theorem request_budget (rt : Runtime) (w : World) (fuel : nat)
    (limit : Z) (svc : TraktService) :
  let out := TraktService.get_top_movies rt w fuel limit (init_state w svc) in
  let c P := count_requests P (log out.2) in
  (c is_stats ≤ c is_details_request)%nat
  ∧ (c is_ratings ≤ c is_stats)%nat
  ∧ (c is_keywords ≤ c is_ratings)%nat
  ∧ Z.of_nat (c is_details_request) ≤ Z.max 0 limit
  ∧ length (limiter_stamps (log out.2))
    = (c is_listing + c is_details_request + c is_stats + c is_ratings)%nat
  ∧ (∀ stop, out.1 = Ok stop →
       c is_stats = c is_details_request ∧
       c is_ratings = c is_details_request).
Proof.
  intros out c. subst c.
  destruct out as [r s'] eqn:E. subst out.
  apply get_top_movies_exit in E as (x & l & Hexit & -> & Hlog).
  simpl. rewrite Hlog.
  exact (loop_exit_budget w limit _ fuel x l Hexit).
Qed.

(** Fifty-three movies without TMDB identifier: four listings and
    fifty-three lookups of each kind. *)
Lemma request_budget_witness :
  let w := catalog_world (sample_catalog 53 false) 1 not_found in
  let out := TraktService.get_top_movies sample_runtime w 60 100
               (init_state w (TraktService.__init__ empty_disk)) in
  count_requests is_details_request (log out.2) = 53%nat ∧
  count_requests is_stats (log out.2)
  = count_requests is_details_request (log out.2) ∧
  count_requests is_ratings (log out.2)
  = count_requests is_details_request (log out.2).
Proof.
  intros w out. split; [by vm_compute|].
  destruct (request_budget sample_runtime w 60 100
              (TraktService.__init__ empty_disk)) as (_ & _ & _ & _ & _ & H).
  apply (H EmptyPage). by vm_compute.
Defined.

(** X9: when the clock does not run backwards and the service was created
    before the run began, the limiter never sleeps longer than
    [REQUEST_DELAY] in a run of [get_top_movies], and never for a time that
    is not positive. *)
Theorem limiter_sleeps_bounded (rt : Runtime) (w : World) (fuel : nat)
    (limit : Z) (svc : TraktService) :
  world_ok w →
  (last_request_time svc <= boot w)%Q →
  Forall short_sleep
    (log (TraktService.get_top_movies rt w fuel limit (init_state w svc)).2).
Proof.
  intros Hw Hboot.
  apply (keeps_get_top_movies rt w calm (calm_limiter w Hw)
           (calm_requests_get w) calm_yield fuel limit (init_state w svc)).
  split; [done|constructor].
Qed.

Lemma limiter_sleeps_bounded_witness :
  let w := catalog_world (sample_catalog 1 true) (1 # 100) not_found in
  Forall short_sleep
    (log (TraktService.get_top_movies sample_runtime w 5 1
            (init_state w (TraktService.__init__ empty_disk))).2).
Proof.
  intros w.
  apply (limiter_sleeps_bounded sample_runtime w 5 1
           (TraktService.__init__ empty_disk)).
  - split; intros n; simpl; lra.
  - simpl. lra.
Defined.

(** X10: a run of [get_top_movies] never changes [self.fetched_ids] nor
    [self.start_page], from whatever state it starts and however it ends:
    the movies it fetches are not added to the identifiers it skips. *)
Theorem service_fields_unchanged (rt : Runtime) (w : World) (fuel : nat)
    (limit : Z) (s : St) :
  let out := TraktService.get_top_movies rt w fuel limit s in
  svc_fetched_ids (self out.2) = svc_fetched_ids (self s)
  ∧ start_page (self out.2) = start_page (self s).
Proof.
  apply (keeps_get_top_movies rt w
           (same_fields (svc_fetched_ids (self s)) (start_page (self s)))
           (fields_limiter w _ _) (fields_requests_get w _ _)
           (fields_yield _ _) fuel limit s).
  done.
Qed.


(** ** The driver *)

Section MainMore.

Context (rt : Runtime) (w : World).

Lemma save_movies_named stamps ms current_page d :
  named rt d →
  (∀ f m, movie_files d !! f = Some m →
     movie_files (FileHandler.save_movies rt stamps ms current_page d) !! f
     = Some m)
  ∧ named rt (FileHandler.save_movies rt stamps ms current_page d).
Proof.
  intros Hnamed. split.
  - intros f m Hf. rewrite save_movies_files.
    eapply (foldl_insert_keeps rt (movie_files d) (index_ids d)); try done.
    intros m' Hm'. eapply new_movies_fresh, list_elem_of_fmap. eauto.
  - intros f m. rewrite save_movies_files, index_ids_save.
    apply foldl_insert_named.
    + intros m' Hm'. apply elem_of_app. right. apply list_elem_of_fmap. eauto.
    + intros f' m' Hf'. destruct (Hnamed f' m' Hf') as [? ?].
      split; [done|]. apply elem_of_app. by left.
Qed.

Lemma save_batches_count stamps batches : ∀ k d,
  FileHandler.get_saved_count d
  ≤ FileHandler.get_saved_count (save_batches rt stamps k batches d)
  ≤ FileHandler.get_saved_count d + Z.of_nat (sum_list (batch_sizes batches)).
Proof.
  induction batches as [|[batch pg] batches IH]; intros k d; simpl; [lia|].
  specialize (IH (S k) (FileHandler.save_movies rt (stamps k) batch pg d)).
  pose proof (get_saved_count_save_le rt (stamps k) batch pg d). lia.
Qed.

Lemma save_batches_prefix stamps batches : ∀ k d,
  idx_movies (FileHandler._load_index d)
  `prefix_of` idx_movies (FileHandler._load_index
                            (save_batches rt stamps k batches d)).
Proof.
  induction batches as [|[batch pg] batches IH]; intros k d; simpl; [done|].
  etrans; [|apply IH]. rewrite save_movies_entries. by apply prefix_app_r.
Qed.

Lemma save_batches_named stamps batches : ∀ k d,
  named rt d →
  (∀ f m, movie_files d !! f = Some m →
     movie_files (save_batches rt stamps k batches d) !! f = Some m)
  ∧ named rt (save_batches rt stamps k batches d).
Proof.
  induction batches as [|[batch pg] batches IH]; intros k d Hd; simpl; [done|].
  destruct (save_movies_named (stamps k) batch pg d Hd) as [Hkeep Hd'].
  destruct (IH (S k) _ Hd') as [Hkeep' Hd''].
  split; [|done]. intros f m Hf. by apply Hkeep', Hkeep.
Qed.

Lemma consistent_backed d : consistent rt d → backed d.
Proof. by intros (_ & _ & Hidx). Qed.

Lemma save_movies_backed stamps ms current_page d :
  named rt d → backed d →
  backed (FileHandler.save_movies rt stamps ms current_page d).
Proof.
  intros Hnamed Hbacked e. rewrite save_movies_entries.
  intros [He|He]%elem_of_app.
  - destruct (Hbacked e He) as (m & Hm & Hid). exists m. split; [|done].
    by apply save_movies_named.
  - apply elem_of_lookup_imap in He as (k & m & -> & Hm).
    apply list_elem_of_lookup_2 in Hm.
    destruct (foldl_insert_written rt (new_movies d ms) (movie_files d) m Hm)
      as (m' & Hm' & Hname).
    exists m'. rewrite save_movies_files. split; [done|].
    by apply (get_filename_trakt rt).
Qed.

Lemma save_batches_backed stamps batches : ∀ k d,
  named rt d → backed d → backed (save_batches rt stamps k batches d).
Proof.
  induction batches as [|[batch pg] batches IH]; intros k d Hd Hb; simpl;
    [done|].
  apply IH; [by apply save_movies_named|by apply save_movies_backed].
Qed.

(** [main] asks for what is missing of the target and gets no more. *)
Lemma main_batches_total fuel d :
  Z.of_nat (sum_list (batch_sizes (main_batches rt w fuel d)))
  ≤ Z.max 0 (target_total - FileHandler.get_saved_count d).
Proof.
  unfold main_batches.
  destruct (Z.eqb_spec (Z.max 0 (target_total - FileHandler.get_saved_count d)) 0)
    as [->|_]; [done|].
  destruct (TraktService.get_top_movies _ _ _ _ _) as [r s'] eqn:E.
  apply get_top_movies_exit in E as (x & l & Hexit & _ & Hlog).
  simpl. rewrite Hlog. apply loop_exit_total in Hexit. lia.
Qed.

End MainMore.

(** X11: [main] never brings the number of stored movies above the target
    of 12000, unless it was above it before, and never lowers it: with the
    target reached, the count stays as it is. *)
Theorem main_saved_count (rt : Runtime) (w : World)
    (stamps : nat → nat → pystr) (fuel : nat) (d : Disk) :
  FileHandler.get_saved_count d
  ≤ FileHandler.get_saved_count (main rt w stamps fuel d)
  ≤ Z.max (FileHandler.get_saved_count d) target_total.
Proof.
  unfold main.
  pose proof (save_batches_count rt stamps (main_batches rt w fuel d) 0 d).
  pose proof (main_batches_total rt w fuel d). lia.
Qed.

(** X12: [main] only adds to the store. The index entries there were stay
    at the head of the index, unchanged; and in a store where every file is
    named after its record and indexed, every file is still there with its
    content when [main] is done, whatever the servers answer and wherever
    the run stops. *)
Theorem main_append_only (rt : Runtime) (w : World)
    (stamps : nat → nat → pystr) (fuel : nat) (d : Disk) :
  idx_movies (FileHandler._load_index d)
  `prefix_of` idx_movies (FileHandler._load_index (main rt w stamps fuel d))
  ∧ (named rt d →
     ∀ f m, movie_files d !! f = Some m →
       movie_files (main rt w stamps fuel d) !! f = Some m).
Proof.
  split; [apply save_batches_prefix|].
  intros Hd. by apply save_batches_named.
Qed.

Lemma main_append_only_witness :
  let w := catalog_world (sample_catalog 53 false) 1 not_found in
  let d' := main sample_runtime w (λ _, sample_stamps) 60 disk_at_page_3 in
  movie_files d' !! lit "A_42.json" = Some (sample_movie "A" 42).
Proof.
  intros w d'.
  destruct (main_append_only sample_runtime w (λ _, sample_stamps) 60
              disk_at_page_3) as [_ H].
  apply H; [|reflexivity].
  apply consistent_named. unfold disk_at_page_3.
  apply save_movies_consistent; [apply consistent_empty_disk|compute_done].
Defined.

(** X18: the index never lists a movie without its file. In a store where
    every file is named after its record and indexed, and every index entry
    has a file under the name it gives, holding a record with its
    identifier, every index entry has such a file after [save_movies], and
    after [main]: an entry is added to the index only for a movie whose
    file has been written, and the files of the old entries are not
    touched. *)
Theorem index_entries_backed (rt : Runtime) (w : World) (stamps : nat → pystr)
    (run_stamps : nat → nat → pystr) (fuel : nat) (ms : list Movie)
    (current_page : Z) (d : Disk) :
  named rt d → backed d →
  backed (FileHandler.save_movies rt stamps ms current_page d)
  ∧ backed (main rt w run_stamps fuel d).
Proof.
  intros Hd Hb. split; [by apply save_movies_backed|].
  by apply save_batches_backed.
Qed.

Lemma index_entries_backed_witness :
  let w := catalog_world (sample_catalog 53 false) 1 not_found in
  backed (FileHandler.save_movies sample_runtime sample_stamps
            [sample_movie "Z" 42; sample_movie "B" 7; sample_movie "B" 7] 5
            disk_at_page_3)
  ∧ backed (main sample_runtime w (λ _, sample_stamps) 60 disk_at_page_3).
Proof.
  intros w.
  assert (consistent sample_runtime disk_at_page_3) as Hd.
  { unfold disk_at_page_3.
    apply save_movies_consistent; [apply consistent_empty_disk|compute_done]. }
  apply (index_entries_backed sample_runtime w sample_stamps (λ _, sample_stamps)
           60 [sample_movie "Z" 42; sample_movie "B" 7; sample_movie "B" 7] 5
           disk_at_page_3).
  - by apply consistent_named.
  - by apply (consistent_backed sample_runtime).
Defined.

(** ** More on filenames *)

Section FilenameMore.

Lemma lit_cons a s : lit (String a s) = N_of_ascii a :: lit s.
Proof. done. Qed.

Lemma uint_digits d c :
  c ∈ lit (NilEmpty.string_of_uint d) → c ∈ lit "0123456789".
Proof.
  induction d; cbn [NilEmpty.string_of_uint]; rewrite ?lit_cons;
    [by intros ?%elem_of_nil|..];
    (intros [->|H]%elem_of_cons; [compute_done|by apply IHd]).
Qed.

Lemma str_of_int_digits z c : c ∈ str_of_int z → c ∈ lit "-0123456789".
Proof.
  unfold str_of_int. destruct (Z.to_int z) as [d|d]; cbn [NilEmpty.string_of_int].
  - intros H%uint_digits. rewrite lit_cons. apply elem_of_cons. by right.
  - rewrite !lit_cons. intros [->|H%uint_digits]%elem_of_cons; [compute_done|].
    apply elem_of_cons. by right.
Qed.

End FilenameMore.

(** X13: the filename of a movie is made of the alphanumeric characters of
    its title, underscores, the decimal digits of its identifier with a
    minus sign if it is negative, and the extension: whatever the title, no
    other character gets into the name, and the name ends in [.json] (the
    pattern [get_saved_count] counts). *)
Theorem get_filename_characters (rt : Runtime) (m : Movie) :
  (∀ c, c ∈ get_filename rt m →
     isalnum rt c = true ∨ c ∈ lit "_-0123456789.json")
  ∧ lit ".json" `suffix_of` get_filename rt m
  ∧ length (get_filename rt m)
    = (length (title m) + length (str_of_int (trakt (ids m))) + 6)%nat.
Proof.
  unfold get_filename, clean_title. split; [|split].
  - intros c. rewrite !elem_of_app.
    intros [(x & -> & Hx)%list_elem_of_fmap|[H|[H%str_of_int_digits|H]]].
    + destruct (isalnum rt x) eqn:E; [by left|right; compute_done].
    + right. revert H. rewrite !lit_cons, !elem_of_cons. tauto.
    + right. revert H. rewrite !lit_cons, !elem_of_cons. tauto.
    + right. revert H. rewrite !lit_cons, !elem_of_cons. tauto.
  - rewrite !app_assoc. by apply suffix_app_r.
  - rewrite !length_app, length_fmap.
    change (length (lit "_")) with 1%nat. change (length (lit ".json")) with 5%nat.
    lia.
Qed.

(** A title with a slash and a space: both become underscores. *)
Lemma get_filename_characters_witness :
  get_filename sample_runtime (sample_movie "A/B C" 42) = lit "A_B_C_42.json" ∧
  (sample_runtime.(isalnum) 95 = true ∨ 95%N ∈ lit "_-0123456789.json").
Proof.
  split; [reflexivity|].
  destruct (get_filename_characters sample_runtime (sample_movie "A/B C" 42))
    as [H _].
  apply H. compute_done.
Defined.


(** ** Entries that are skipped *)

Section Skipping.

Context (rt : Runtime) (w : World).

(** One round of the [for] loop. *)
Lemma for_page_movies_cons limit movie_data rest g s :
  TraktService.for_page_movies rt w limit (movie_data :: rest) g s
  = if total_processed g >=? limit then (Ok g, s)
    else if bool_decide (trakt (md_ids movie_data) ∈ svc_fetched_ids (self s))
    then TraktService.for_page_movies rt w limit rest g s
    else match TraktService.fetch_movie rt w movie_data s with
         | (Ok movie_obj, s1) =>
             if (BATCH_SIZE <=? length (movies g ++ [movie_obj]))%nat
             then TraktService.for_page_movies rt w limit rest
                    {| movies := []; page := page g;
                       total_processed := total_processed g + 1 |}
                    (emit (EYield (movies g ++ [movie_obj]) (page g)) s1).2
             else TraktService.for_page_movies rt w limit rest
                    {| movies := movies g ++ [movie_obj]; page := page g;
                       total_processed := total_processed g + 1 |} s1
         | (Raise e, s1) => (Raise e, s1)
         end.
Proof.
  cbn [TraktService.for_page_movies].
  destruct (total_processed g >=? limit); [done|].
  unfold mbind at 1, get_self at 1.
  destruct (bool_decide _); [done|]. unfold mbind at 1.
  destruct (TraktService.fetch_movie rt w movie_data s) as [[movie_obj|e] s1];
    [|done].
  by destruct (BATCH_SIZE <=? _)%nat.
Qed.

(** The [for] loop passes over the entries whose identifier is in
    [self.fetched_ids]. *)
Lemma for_page_movies_filter limit fetched page_movies : ∀ g s,
  svc_fetched_ids (self s) = fetched →
  TraktService.for_page_movies rt w limit page_movies g s
  = TraktService.for_page_movies rt w limit
      (filter (λ movie_data, trakt (md_ids movie_data) ∉ fetched) page_movies)
      g s.
Proof.
  induction page_movies as [|movie_data rest IH]; intros g s Hs; [done|].
  rewrite filter_cons.
  destruct (decide (trakt (md_ids movie_data) ∉ fetched)) as [Hnew|Hold].
  - rewrite !for_page_movies_cons.
    destruct (total_processed g >=? limit); [done|].
    rewrite Hs, bool_decide_eq_false_2 by done.
    destruct (TraktService.fetch_movie rt w movie_data s)
      as [[movie_obj|e] s1] eqn:E; [|done].
    apply fetch_movie_log in E as (k & evs & _ & _ & Hf & _).
    rewrite Hs in Hf.
    destruct (BATCH_SIZE <=? _)%nat; by apply IH.
  - apply dec_stable in Hold. rewrite for_page_movies_cons.
    rewrite Hs, bool_decide_eq_true_2 by done.
    destruct (total_processed g >=? limit) eqn:El; [|by apply IH].
    destruct (filter _ rest); [done|].
    by rewrite for_page_movies_cons, El.
Qed.

Lemma for_page_movies_known limit page_movies g s :
  (∀ movie_data, movie_data ∈ page_movies →
     trakt (md_ids movie_data) ∈ svc_fetched_ids (self s)) →
  TraktService.for_page_movies rt w limit page_movies g s = (Ok g, s).
Proof.
  intros Hknown.
  rewrite (for_page_movies_filter limit (svc_fetched_ids (self s))) by done.
  destruct (filter _ page_movies) as [|movie_data rest] eqn:E; [done|].
  assert (movie_data ∈ movie_data :: rest) as Hin by left.
  rewrite <- E in Hin. apply list_elem_of_filter in Hin as [Hnew Hin].
  destruct Hnew. by apply Hknown.
Qed.

(** On pages of known entries the loop asks for page after page. *)
Lemma while_loop_known limit fetched :
  (∀ i pg k, known_page fetched (respond w i (ReqPopular pg k))) →
  ∀ fuel g s,
    total_processed g < limit →
    svc_fetched_ids (self s) = fetched →
    ∃ s',
      TraktService.while_loop rt w fuel limit g s
      = (Ok ({| movies := movies g; page := page g + Z.of_nat fuel;
                total_processed := total_processed g |}, OutOfFuel), s')
      ∧ requests (log s')
        = requests (log s)
          ++ ((λ j, ReqPopular (page g + Z.of_nat j)
                      (Z.min (limit - total_processed g) 20)) <$> seq 0 fuel)
      ∧ yields (log s') = yields (log s).
Proof.
  intros Hknown. induction fuel as [|fuel IH]; intros g s Hlt Hs;
    cbn [TraktService.while_loop];
    destruct (Z.ltb_spec (total_processed g) limit) as [_|]; try lia.
  { exists s. rewrite Z.add_0_r, app_nil_r. by destruct g. }
  rewrite limited_get_bind. unfold mbind at 1.
  destruct (limited_get_spec w
              (ReqPopular (page g) (Z.min (limit - total_processed g) 20)) s)
    as (b & s1 & E & T & Hlog & Hf & _).
  rewrite E.
  destruct (Hknown (sent s) (page g) (Z.min (limit - total_processed g) 20))
    as (x & page_movies & -> & Hin).
  unfold mbind at 1.
  rewrite for_page_movies_known by (by rewrite Hf, Hs).
  destruct (IH {| movies := movies g; page := page g + 1;
                  total_processed := total_processed g |} s1)
    as (s' & -> & Hreq & Hy); [done|by rewrite Hf|].
  exists s'. cbn [movies page total_processed] in *. split; [|split].
  - do 4 f_equal. lia.
  - rewrite Hreq, Hlog, requests_app, (throttled_requests _ _ _ T).
    rewrite <- app_assoc. f_equal. cbn [seq fmap list_fmap app].
    rewrite Z.add_0_r. f_equal.
    rewrite <- fmap_S_seq, <- list_fmap_compose. apply list_fmap_ext.
    intros j y _. simpl. f_equal. lia.
  - by rewrite Hy, Hlog, yields_app, (throttled_yields _ _ _ T), app_nil_r.
Qed.

End Skipping.

(** X14: the [for] loop of [get_top_movies] passes over the listing entries
    whose identifier is in [self.fetched_ids]: it runs as it would on the
    page without them, so that a page which lists only such entries costs no
    request and changes nothing. *)
Theorem for_page_movies_skips (rt : Runtime) (w : World) (limit : Z)
    (page_movies : list MovieData) (g : Gen) (s : St) :
  TraktService.for_page_movies rt w limit page_movies g s
  = TraktService.for_page_movies rt w limit
      (filter (λ movie_data,
                 trakt (md_ids movie_data) ∉ svc_fetched_ids (self s))
         page_movies) g s
  ∧ ((∀ movie_data, movie_data ∈ page_movies →
        trakt (md_ids movie_data) ∈ svc_fetched_ids (self s)) →
     TraktService.for_page_movies rt w limit page_movies g s = (Ok g, s)).
Proof.
  split; [by apply for_page_movies_filter|apply for_page_movies_known].
Qed.

Lemma for_page_movies_skips_witness :
  let w := catalog_world (sample_catalog 3 false) 1 not_found in
  let s := init_state w (TraktService.__init__ disk_at_page_3) in
  let g := {| movies := []; page := 4; total_processed := 0 |} in
  TraktService.for_page_movies sample_runtime w 10
    [listing_of (sample_details "A" 42 None)] g s = (Ok g, s).
Proof.
  intros w s g.
  destruct (for_page_movies_skips sample_runtime w 10
              [listing_of (sample_details "A" 42 None)] g s) as [_ H].
  apply H. intros movie_data ->%list_elem_of_singleton. compute_done.
Defined.

(** X15: skipped entries do not count towards the limit. While the server
    answers every listing request with a page of entries that are all known,
    [get_top_movies] asks for one page after the other and for nothing
    else, and yields no batch: with a positive limit the loop does not end
    by itself, whatever the number of rounds it is given. *)
Theorem known_pages_never_end (rt : Runtime) (w : World) (fuel : nat)
    (limit : Z) (svc : TraktService) :
  0 < limit →
  (∀ i pg k, known_page (svc_fetched_ids svc) (respond w i (ReqPopular pg k))) →
  let out := TraktService.get_top_movies rt w fuel limit (init_state w svc) in
  out.1 = Ok OutOfFuel
  ∧ requests (log out.2)
    = (λ j, ReqPopular (start_page svc + Z.of_nat j) (Z.min limit 20))
        <$> seq 0 fuel
  ∧ yields (log out.2) = [].
Proof.
  intros Hlimit Hknown out.
  destruct (while_loop_known rt w limit (svc_fetched_ids svc) Hknown fuel
              {| movies := []; page := start_page svc; total_processed := 0 |}
              (init_state w svc)) as (s' & E & Hreq & Hy); [done..|].
  cbn [movies page total_processed] in *. rewrite Z.sub_0_r in Hreq.
  destruct out as [r s''] eqn:Eout. subst out.
  unfold TraktService.get_top_movies in Eout.
  unfold mbind at 1, get_self at 1 in Eout. unfold mbind at 1 in Eout.
  cbn [self init_state] in Eout. rewrite E in Eout.
  unfold mret in Eout. injection Eout as <- <-. simpl. by rewrite Hreq, Hy.
Qed.

(** The store knows the movie 42 and the server lists it on every page. *)
Lemma known_pages_never_end_witness :
  let out := TraktService.get_top_movies sample_runtime stale_world 3 10
               (init_state stale_world (TraktService.__init__ disk_at_page_3)) in
  out.1 = Ok OutOfFuel
  ∧ requests (log out.2) = [ReqPopular 4 10; ReqPopular 5 10; ReqPopular 6 10]
  ∧ yields (log out.2) = [].
Proof.
  apply (known_pages_never_end sample_runtime stale_world 3 10
           (TraktService.__init__ disk_at_page_3)); [lia|].
  intros i pg k. eexists _, _. split; [reflexivity|].
  intros movie_data ->%list_elem_of_singleton. compute_done.
Defined.

(** X16: resuming after a save. Once [save_movies] has stored a batch with
    at least one new movie, a service created on the store starts at the
    page after the one the batch was saved with, knows every identifier of
    the batch, and passes over a listing page made of movies of the
    batch. *)
Theorem resume_after_save (rt : Runtime) (w : World) (stamps : nat → pystr)
    (ms : list Movie) (current_page : Z) (d : Disk) (limit : Z)
    (page_movies : list MovieData) (g : Gen) :
  (∃ m, m ∈ ms ∧ trakt (ids m) ∉ index_ids d) →
  let svc := TraktService.__init__
               (FileHandler.save_movies rt stamps ms current_page d) in
  start_page svc = current_page + 1
  ∧ (∀ m, m ∈ ms → trakt (ids m) ∈ svc_fetched_ids svc)
  ∧ ((∀ movie_data, movie_data ∈ page_movies →
        trakt (md_ids movie_data) ∈ movie_ids ms) →
     TraktService.for_page_movies rt w limit page_movies g (init_state w svc)
     = (Ok g, init_state w svc)).
Proof.
  intros (m0 & Hm0 & Hnew0) svc.
  assert (new_movies d ms ≠ []) as E.
  { intros E. apply Hnew0. by eapply new_movies_nil. }
  assert (svc_fetched_ids svc
          = list_to_set (index_ids d) ∪ list_to_set (movie_ids ms)) as Hf.
  { by apply save_movies_fetched_ids. }
  split; [|split].
  - subst svc. cbn [start_page TraktService.__init__].
    by rewrite get_last_page_save.
  - intros m Hm. rewrite Hf, elem_of_union, !elem_of_list_to_set. right.
    apply list_elem_of_fmap. eauto.
  - intros Hpage. apply for_page_movies_known. intros movie_data Hin.
    cbn [self init_state]. rewrite Hf, elem_of_union, !elem_of_list_to_set.
    right. by apply Hpage.
Qed.

Lemma resume_after_save_witness :
  let svc := TraktService.__init__
               (FileHandler.save_movies sample_runtime sample_stamps
                  [sample_movie "A" 42; sample_movie "B" 7] 5 empty_disk) in
  start_page svc = 6 ∧ 7 ∈ svc_fetched_ids svc.
Proof.
  intros svc.
  destruct (resume_after_save sample_runtime stale_world sample_stamps
              [sample_movie "A" 42; sample_movie "B" 7] 5 empty_disk 10 []
              {| movies := []; page := 6; total_processed := 0 |})
    as (H1 & H2 & _).
  - exists (sample_movie "A" 42). split; [set_solver|]. compute_done.
  - split; [exact H1|]. apply (H2 (sample_movie "B" 7)). set_solver.
Defined.


(** ** The movie that is built *)

Section Assembly.

Context (rt : Runtime) (w : World).

Lemma make_movie_fields movie stats_data ratings_data kws s m s' :
  TraktService.make_movie rt movie stats_data ratings_data kws s = (Ok m, s') →
  stats_data = JStats (stats m) ∧ ratings_data = JRatings (m_rating m)
  ∧ title m = d_title movie ∧ year m = d_year movie ∧ ids m = d_ids movie
  ∧ keywords m = kws.
Proof.
  unfold TraktService.make_movie, TraktService.parse_opt, mbind.
  destruct (truthy_str (d_released movie)) as [x|]; simpl;
    [destruct (strptime_date rt x); simpl; [|done]|];
    (destruct (truthy_str (d_updated_at movie)) as [y|]; simpl;
     [destruct (strptime_datetime rt y); simpl; [|done]|]);
    destruct stats_data, ratings_data; try done;
    unfold mret; intros [= <- <-]; done.
Qed.

End Assembly.

(** X17: a movie object that carries a TMDB identifier is built from the
    answers to the three Trakt lookups made with the slug of its listing
    entry, in the order details, stats, ratings: its title, year and
    identifiers are those of the details answer (not of the listing entry),
    its stats and rating those of the two other answers, and its keywords
    the ones of the TMDB answer; for the identifier 0 TMDB is not asked and
    the movie has no keyword. *)
Theorem fetch_movie_fields (rt : Runtime) (w : World) (movie_data : MovieData)
    (s s' : St) (m : Movie) (tmdb_id : Z) :
  TraktService.fetch_movie rt w movie_data s = (Ok m, s') →
  tmdb (ids m) = Some tmdb_id →
  let movie_slug := slug (md_ids movie_data) in
  ∃ movie,
    decode (respond w (sent s) (ReqDetails movie_slug)) = Ok (JDetails movie)
    ∧ decode (respond w (S (sent s)) (ReqStats movie_slug))
      = Ok (JStats (stats m))
    ∧ decode (respond w (S (S (sent s))) (ReqRatings movie_slug))
      = Ok (JRatings (m_rating m))
    ∧ title m = d_title movie ∧ year m = d_year movie ∧ ids m = d_ids movie
    ∧ if tmdb_id =? 0
      then keywords m = [] ∧ sent s' = S (S (S (sent s)))
      else keywords_result
             (respond w (S (S (S (sent s)))) (ReqKeywords tmdb_id))
           = Ok (keywords m).
Proof.
  unfold TraktService.fetch_movie.
  set (movie_slug := slug (md_ids movie_data)).
  change (TraktService.get_movie_details w movie_slug)
    with (limited_get w (ReqDetails movie_slug)).
  change (TraktService.get_movie_stats w movie_slug)
    with (limited_get w (ReqStats movie_slug)).
  change (TraktService.get_movie_ratings w movie_slug)
    with (limited_get w (ReqRatings movie_slug)).
  intros H Htmdb. simpl.
  destruct (limited_get_spec w (ReqDetails movie_slug) s)
    as (b1 & s1 & E1 & _ & _ & _ & S1).
  unfold mbind at 1 in H. rewrite E1 in H.
  destruct (decode (respond w (sent s) (ReqDetails movie_slug)))
    as [[| movie | | | |]|e] eqn:D1; try done.
  destruct (limited_get_spec w (ReqStats movie_slug) s1)
    as (b2 & s2 & E2 & _ & _ & _ & S2).
  unfold mbind at 1 in H. rewrite E2 in H. rewrite S1 in *.
  destruct (decode (respond w (S (sent s)) (ReqStats movie_slug)))
    as [stats_data|e] eqn:D2; [|done].
  destruct (limited_get_spec w (ReqRatings movie_slug) s2)
    as (b3 & s3 & E3 & _ & _ & _ & S3).
  unfold mbind at 1 in H. rewrite E3 in H. rewrite S2 in *.
  destruct (decode (respond w (S (S (sent s))) (ReqRatings movie_slug)))
    as [ratings_data|e] eqn:D3; [|done].
  unfold mbind at 1 in H. exists movie. split; [done|].
  assert (∀ kws s4, TraktService.make_movie rt movie stats_data ratings_data
                      kws s4 = (Ok m, s') →
    Ok stats_data = Ok (JStats (stats m))
    ∧ Ok ratings_data = Ok (JRatings (m_rating m))
    ∧ title m = d_title movie ∧ year m = d_year movie ∧ ids m = d_ids movie
    ∧ keywords m = kws ∧ s' = s4) as Hmake.
  { intros kws s4 Hm.
    pose proof (make_movie_state rt movie stats_data ratings_data kws s4) as Hs.
    rewrite Hm in Hs. simpl in Hs.
    apply make_movie_fields in Hm as (-> & -> & ? & ? & ? & ?). done. }
  destruct (tmdb (d_ids movie)) as [tmdb_id'|] eqn:Ed.
  - assert (tmdb_id' = tmdb_id) as ->.
    { destruct (Z.eqb_spec tmdb_id' 0) as [|Hne].
      - apply Hmake in H as (_ & _ & _ & _ & Hids & _). congruence.
      - destruct (get_movie_keywords_log w tmdb_id' s3 Hne) as (s4 & E4 & _).
        rewrite E4 in H.
        destruct (keywords_result _) as [kws|e]; [|done].
        apply Hmake in H as (_ & _ & _ & _ & Hids & _). congruence. }
    destruct (Z.eqb_spec tmdb_id 0) as [|Hne].
    + apply Hmake in H as (? & ? & ? & ? & ? & ? & ->). by rewrite S3.
    + destruct (get_movie_keywords_log w tmdb_id s3 Hne) as (s4 & E4 & _).
      rewrite E4, S3 in H.
      destruct (keywords_result _) as [kws|e]; [|done].
      apply Hmake in H as (? & ? & ? & ? & ? & <- & _). done.
  - apply Hmake in H as (_ & _ & _ & _ & Hids & _). congruence.
Qed.

(** A movie with the TMDB identifier 1001, which TMDB does not know. *)
Lemma fetch_movie_fields_witness :
  let w := catalog_world (sample_catalog 1 true) 1 not_found in
  ∃ m s',
    TraktService.fetch_movie sample_runtime w
      (listing_of (sample_details "Movie" 1 (Some 1001)))
      (init_state w (TraktService.__init__ empty_disk)) = (Ok m, s')
    ∧ trakt (ids m) = 1 ∧ keywords m = [].
Proof.
  intros w.
  destruct (TraktService.fetch_movie sample_runtime w
              (listing_of (sample_details "Movie" 1 (Some 1001)))
              (init_state w (TraktService.__init__ empty_disk)))
    as [[m|e] s'] eqn:E; [|by vm_compute in E].
  exists m, s'. split; [done|].
  assert (tmdb (ids m) = Some 1001) as Htmdb.
  { pose proof E as E'. vm_compute in E'. by injection E' as <- _. }
  destruct (fetch_movie_fields sample_runtime w _ _ _ _ 1001 E Htmdb)
    as (movie & Hd & _ & _ & _ & _ & Hids & Hkw).
  vm_compute in Hd. injection Hd as <-. rewrite Hids. split; [reflexivity|].
  vm_compute in Hkw. by injection Hkw.
Defined.
